(** * SegFormer fine-tuning notebook: a shallow embedding

    The notebook [SegFormer_Segmentation_Training.ipynb] is glue code: a
    dataset adapter ([SegmentationDataset]), two batch loaders, and one
    training/validation loop.  Everything numerical is delegated to
    collaborators (PyTorch, transformers, datasets, evaluate).

    The embedding keeps the notebook's own statements as executable Rocq
    definitions and takes the collaborators as the operations of a type
    class (a forward pass, a backward pass, the optimizer update, the metric,
    the encoder, the random permutation used for shuffling).  State that the
    notebook threads implicitly (model weights, gradients, scheduler, metric
    accumulator, console) is an explicit record, and exceptions are an
    explicit result type. *)

From Stdlib Require Import ZArith QArith Floats Ascii.
From stdpp Require Import gmap strings list pretty.

Local Open Scope nat_scope.

(* Decimal literals such as 5e-5 denote the nearest binary64 number, as in
   Python. *)
#[local] Set Warnings "-inexact-float".

(** ** Exceptions

    No exception is caught anywhere in the notebook: a raised exception
    aborts the run.  [result] is the outcome of a fallible computation. *)

Inductive Err : Type :=
| IndexError
| KeyError (key : string)
| ValueError
| RuntimeError.

Inductive result (A : Type) : Type :=
| Ok (a : A)
| Raise (e : Err).
Arguments Ok {A} a.
Arguments Raise {A} e.

Definition rbind {A B} (r : result A) (f : A → result B) : result B :=
  match r with
  | Ok a => f a
  | Raise e => Raise e
  end.

(** [d[key]] on a Python dict. *)
Definition getkey {V} (d : gmap string V) (key : string) : result V :=
  match d !! key with
  | Some v => Ok v
  | None => Raise (KeyError key)
  end.

(** [xs[i]] on an indexable collection, for a non-negative index. *)
Definition getindex {A} (xs : list A) (i : nat) : result A :=
  match xs !! i with
  | Some x => Ok x
  | None => Raise IndexError
  end.

(** A list comprehension whose element expression may raise: the first
    exception, in iteration order, aborts it. *)
Fixpoint rmap {A B} (f : A → result B) (xs : list A) : result (list B) :=
  match xs with
  | [] => Ok []
  | x :: rest =>
      rbind (f x) (λ y, rbind (rmap f rest) (λ ys, Ok (y :: ys)))
  end.

(** ** Tensors

    A tensor is its shape and its elements in row-major order.  The element
    type is left open (pixel values are floating point, labels are
    integers). *)

Record Tensor (E : Type) : Type := mkTensor {
  shape : list nat;
  data : list E;
}.
Arguments mkTensor {E} shape data.
Arguments shape {E} t.
Arguments data {E} t.

(** [v.squeeze()], called without a [dim] argument: every dimension of
    size 1 is removed; the elements are untouched. *)
Definition squeeze {E} (v : Tensor E) : Tensor E :=
  mkTensor (filter (λ d, d ≠ 1) (shape v)) (data v).

(** [v.squeeze(0)], for comparison: only a leading dimension of size 1 is
    removed.  The notebook does not call this variant. *)
Definition squeeze_dim0 {E} (v : Tensor E) : Tensor E :=
  match shape v with
  | 1 :: rest => mkTensor rest (data v)
  | _ => v
  end.

(** ** The dataset adapter (class [SegmentationDataset]) *)

Section Adapter.
(** [Array] is what the raw dataset stores under a field, [Image] a PIL
    image, [E] the element type of encoded tensors. *)
Context {Array Image E : Type}.

(** [Image.fromarray]. *)
Variable fromarray : Array → result Image.

(** A raw item is a dict from field names to arrays, [gmap string Array];
    the encoder returns, and [__getitem__] returns, a dict from field names
    to tensors, [gmap string (Tensor E)]. *)

Record SegmentationDataset : Type := mkDataset {
  ds : list (gmap string Array);
  processor : Image → Image → result (gmap string (Tensor E));
}.

(** [__len__] *)
Definition dataset_len (self : SegmentationDataset) : nat :=
  length (ds self).

(** The first four statements of [__getitem__]: fetch the raw item and
    encode it (with [return_tensors="pt"]). *)
Definition encode_item (self : SegmentationDataset) (idx : nat)
  : result (gmap string (Tensor E)) :=
  rbind (getindex (ds self) idx) (λ item,
  rbind (getkey item "image") (λ a,
  rbind (fromarray a) (λ image,
  rbind (getkey item "segmentation_mask") (λ b,
  rbind (fromarray b) (λ mask,
  processor self image mask))))).

(** [__getitem__]: [{k: v.squeeze() for k, v in encoded.items()}]. *)
Definition getitem (self : SegmentationDataset) (idx : nat)
  : result (gmap string (Tensor E)) :=
  rbind (encode_item self idx) (λ encoded, Ok (squeeze <$> encoded)).

(** The encoder's contract used by the key-stability property: which
    fields it returns is fixed by its configuration. *)
Definition keys_fixed_by_configuration
    (proc : Image → Image → result (gmap string (Tensor E)))
    (keys : gset string) : Prop :=
  ∀ image mask encoded, proc image mask = Ok encoded → dom encoded = keys.

End Adapter.

Arguments SegmentationDataset : clear implicits.
Arguments mkDataset {Array Image E} ds processor.

(** ** The batch loader ([torch.utils.data.DataLoader])

    The loader is a collaborator: the notebook only constructs it
    ([DataLoader(dataset, batch_size=..., shuffle=...)]) and iterates it. *)

(** Modelled from the spec: the batch loader's grouping of sample indices is
    not part of the notebook.  Section 4.2: the indices, in iteration order,
    are grouped into consecutive chunks of the configured size, and the final
    chunk may be smaller.  [batch] is the chunk being filled. *)
Fixpoint batch_sampler (batch_size : nat) (indices : list nat)
    (batch : list nat) : list (list nat) :=
  match indices with
  | [] => match batch with [] => [] | _ => [batch] end
  | idx :: rest =>
      let batch' := batch ++ [idx] in
      if length batch' =? batch_size
      then batch' :: batch_sampler batch_size rest []
      else batch_sampler batch_size rest batch'
  end.

(** Modelled from the spec: the iteration order of one pass is not part of
    the notebook.  Section 4.2: with shuffle enabled it is a fresh random
    permutation drawn when iteration begins, otherwise the original order.
    [randperm] is the framework's generator of permutations: it reads and
    advances the generator state [X]. *)
Definition sampler_order {X} (randperm : nat → X → list nat * X)
    (shuffle : bool) (n : nat) (x : X) : list nat * X :=
  if shuffle then randperm n x else (seq 0 n, x).

(** The index batches of one full pass, and the generator state after it. *)
Definition loader_pass {X} (randperm : nat → X → list nat * X)
    (shuffle : bool) (batch_size n : nat) (x : X) : list (list nat) * X :=
  let '(order, x') := sampler_order randperm shuffle n x in
  (batch_sampler batch_size order [], x').

(** Modelled from the spec: [len(loader)], the number of batches of a pass,
    ceil(L/B) by section 8. *)
Definition loader_len (n batch_size : nat) : nat :=
  (n + batch_size - 1) / batch_size.

(** What the permutation generator is relied on for: a permutation of
    [0 .. n-1]. *)
Definition randperm_contract {X} (randperm : nat → X → list nat * X) : Prop :=
  ∀ n x, (randperm n x).1 ≡ₚ seq 0 n.

(** ** The learning-rate schedule ([get_scheduler("linear", ...)])

    The scheduler is a collaborator: the notebook constructs it and calls
    its [step].  Rates are IEEE binary64 numbers, as in Python. *)

(** [float(z)] for a Python integer of moderate size. *)
Definition float_of_Z (z : Z) : float :=
  if (z <? 0)%Z
  then PrimFloat.opp (PrimFloat.of_uint63 (Uint63.of_Z (- z)))
  else PrimFloat.of_uint63 (Uint63.of_Z z).

(** [max(0.0, x)]: Python returns its first argument unless the second is
    greater. *)
Definition max_zero (x : float) : float :=
  if PrimFloat.ltb PrimFloat.zero x then x else PrimFloat.zero.

(** Modelled from the spec: the decay formula is the scheduler provider's.
    Section 4.3: linear decay from the configured peak rate to zero over the
    total step count, after a linear warm-up over [num_warmup_steps] steps.
    The function is the factor applied to the peak rate. *)
Definition lr_lambda (num_warmup_steps num_training_steps : nat)
    (current_step : nat) : float :=
  if current_step <? num_warmup_steps
  then PrimFloat.div (float_of_Z (Z.of_nat current_step))
                     (float_of_Z (Z.of_nat (Nat.max 1 num_warmup_steps)))
  else max_zero
         (PrimFloat.div
            (float_of_Z (Z.of_nat num_training_steps - Z.of_nat current_step))
            (float_of_Z
               (Z.of_nat (Nat.max 1 (num_training_steps - num_warmup_steps))))).

Record Scheduler : Type := mkScheduler {
  base_lr : float;
  num_warmup_steps : nat;
  num_training_steps : nat;
  last_epoch : nat;
}.

(** Modelled from the spec: the scheduler object is the provider's.  The
    rate it sets on the optimizer is the peak rate times the factor of the
    current step (section 4.3). *)
Definition scheduler_lr (s : Scheduler) : float :=
  PrimFloat.mul (base_lr s)
    (lr_lambda (num_warmup_steps s) (num_training_steps s) (last_epoch s)).

(** Modelled from the spec: [get_scheduler("linear", optimizer=...,
    num_warmup_steps=..., num_training_steps=...)] is the provider's.  The
    schedule starts at its first point: the counter is 0. *)
Definition get_scheduler (lr : float) (warmup total : nat) : Scheduler :=
  mkScheduler lr warmup total 0.

(** Modelled from the spec: the per-step rate-advance operation of
    section 6, [lr_scheduler.step()], moves the schedule one step on. *)
Definition scheduler_advance (s : Scheduler) : Scheduler :=
  mkScheduler (base_lr s) (num_warmup_steps s) (num_training_steps s)
    (S (last_epoch s)).

(** ** Console formatting: the format specification [.4f]

    Python renders the exact value of the binary64 number, rounded to four
    decimals, ties to even. *)

(** [num/den] rounded to the nearest integer, ties to even ([den > 0]). *)
Definition round_half_even (num den : Z) : Z :=
  let q := (num / den)%Z in
  let r := (num mod den)%Z in
  match (2 * r ?= den)%Z with
  | Lt => q
  | Gt => (q + 1)%Z
  | Eq => if Z.even q then q else (q + 1)%Z
  end.

Definition digit_char (d : Z) : Ascii.ascii :=
  Ascii.ascii_of_nat (48 + Z.to_nat d).

(** A non-negative count of ten-thousandths, printed with four decimals. *)
Definition fixed4 (n : Z) : string :=
  pretty (n / 10000)%Z +:+
  String "."%char (String (digit_char (n / 1000 mod 10))
             (String (digit_char (n / 100 mod 10))
             (String (digit_char (n / 10 mod 10))
             (String (digit_char (n mod 10)) EmptyString)))).

Definition sign_prefix (negative : bool) : string :=
  if negative then "-" else "".

(** The magnitude [m * 2^e] in ten-thousandths, rounded. *)
Definition scaled4 (m : positive) (e : Z) : Z :=
  if (0 <=? e)%Z
  then (Z.pos m * 2 ^ e * 10000)%Z
  else round_half_even (Z.pos m * 10000) (2 ^ (- e)).

(** [f"{v:.4f}"] *)
Definition format_4f (v : float) : string :=
  match Prim2SF v with
  | S754_nan => "nan"
  | S754_infinity s => sign_prefix s +:+ "inf"
  | S754_zero s => sign_prefix s +:+ "0.0000"
  | S754_finite s m e => sign_prefix s +:+ fixed4 (scaled4 m e)
  end.

(** The separator of the report line: a space, an em dash (three bytes in
    UTF-8), a space. *)
Definition em_dash : string :=
  String (Ascii.ascii_of_nat 226) (String (Ascii.ascii_of_nat 128)
    (String (Ascii.ascii_of_nat 148) EmptyString)).

(** [f"Epoch {epoch+1}/{num_epochs} — mIoU: {results['mean_iou']:.4f}"],
    with [n] for [epoch+1]. *)
Definition report_line (n num_epochs : nat) (miou : float) : string :=
  "Epoch " +:+ pretty n +:+ "/" +:+ pretty num_epochs +:+ " " +:+ em_dash
  +:+ " mIoU: " +:+ format_4f miou.

(** A metric value the report is specified for: [+0.0], or a positive
    finite number not above 1. *)
Definition unit_interval (v : float) : bool :=
  match Prim2SF v with
  | S754_zero false => true
  | S754_finite false m e =>
      if (0 <=? e)%Z then (Z.pos m * 2 ^ e <=? 1)%Z
      else (Z.pos m <=? 2 ^ (- e))%Z
  | _ => false
  end.

Definition is_digit (c : Ascii.ascii) : bool :=
  let n := Ascii.nat_of_ascii c in (48 <=? n) && (n <=? 57).

(** The shape [D.DDDD], one digit before the point and four after. *)
Definition is_fixed4 (s : string) : bool :=
  match s with
  | String d0 (String "."%char (String d1 (String d2 (String d3
      (String d4 EmptyString))))) =>
      is_digit d0 && is_digit d1 && is_digit d2 && is_digit d3 && is_digit d4
  | _ => false
  end.

(** The shape [0.DDDD]. *)
Definition is_zero_point4 (s : string) : bool :=
  match s with
  | String "0"%char rest => is_fixed4 s
  | _ => false
  end.

(** The number a string of shape [D.DDDD] denotes, in ten-thousandths. *)
Definition fixed4_value (s : string) : option Z :=
  match s with
  | String d0 (String "."%char (String d1 (String d2 (String d3
      (String d4 EmptyString))))) =>
      let v c := (Z.of_nat (Ascii.nat_of_ascii c) - 48)%Z in
      Some (v d0 * 10000 + v d1 * 1000 + v d2 * 100 + v d3 * 10 + v d4)%Z
  | _ => None
  end.

(** ** The collaborators

    What the notebook calls and does not define.  Types are the
    collaborators' own; every operation is a function of the state it reads,
    returning the state it writes. *)

Class Framework : Type := {
  (** an array stored in the raw dataset, a PIL image, a tensor element *)
  RawArray : Type;
  PILImage : Type;
  Scalar : Type;
  (** the learnable weights, their gradient accumulators, the optimizer's
      moment estimates *)
  Weights : Type;
  Grads : Type;
  OptState : Type;
  (** framework state that is not a learnable weight: random generators,
      normalisation buffers *)
  Ambient : Type;
  (** what a forward pass returns; a grid of predicted classes *)
  Outputs : Type;
  Preds : Type;

  (** [Image.fromarray] *)
  image_fromarray : RawArray → result PILImage;
  (** [dataset.shuffle(seed=...)] *)
  hf_shuffle : Z → list (gmap string RawArray) → list (gmap string RawArray);
  (** [SegformerImageProcessor.from_pretrained(checkpoint)] *)
  processor_from_pretrained :
    string → result (PILImage → PILImage → result (gmap string (Tensor Scalar)));
  (** [SegformerForSemanticSegmentation.from_pretrained(checkpoint)] *)
  model_from_pretrained : string → result Weights;
  (** [model.config.num_labels] *)
  config_num_labels : nat;
  (** [AdamW(model.parameters(), lr=...)]: the optimizer's initial state *)
  adamw_init : Weights → OptState;
  (** [evaluate.load(name)]: the metric whose operations are the
      accumulator of the machine and [mean_iou_compute] below, or the
      exception of a metric that cannot be loaded *)
  evaluate_load : string → result unit;
  (** [model.to(device)], for the device the notebook picks: the weights
      on that device, or the exception of a move that fails *)
  model_to_device : Weights → result Weights;
  (** the collation of samples into a batch *)
  default_collate :
    list (gmap string (Tensor Scalar)) → result (gmap string (Tensor Scalar));
  (** the permutation drawn by a shuffling loader *)
  randperm : nat → Ambient → list nat * Ambient;
  (** [v.to(device)] *)
  to_device : Tensor Scalar → Tensor Scalar;
  (** the model called on the fields of a batch, in the given mode
      (training?) and with gradient tracking enabled or not *)
  model_forward :
    bool → bool → Weights → gmap string (Tensor Scalar) → Ambient →
    result Outputs * Ambient;
  (** the gradient [outputs.loss.backward()] adds to the accumulators *)
  loss_gradient : Outputs → result Grads;
  grad_zero : Grads;
  grad_accumulate : Grads → Grads → Grads;
  (** [optimizer.step()] at a learning rate *)
  adamw_update : float → Weights → Grads → OptState → Weights * OptState;
  (** [outputs.logits.argmax(dim=1).cpu().numpy()] *)
  logits_argmax : Outputs → result Preds;
  (** [metric.compute(num_labels=..., ignore_index=..., reduce_labels=...)]
      on the accumulated pairs: the scalar entries of the result mapping
      (the notebook reads one of them), and what is left in the
      accumulator *)
  mean_iou_compute :
    list (Preds * Tensor Scalar) → nat → Z → bool →
    result (gmap string float) * list (Preds * Tensor Scalar);
}.

(** ** The state of a run *)

Section Notebook.
Context `{F : Framework}.

Record Machine : Type := mkMachine {
  weights : Weights;
  grads : Grads;
  opt_state : OptState;
  ambient : Ambient;
  (** [model.training] *)
  training : bool;
  (** the rate in the optimizer's parameter group *)
  lr : float;
  scheduler : Scheduler;
  (** the metric's accumulated (prediction, reference) pairs *)
  accumulator : list (Preds * Tensor Scalar);
  (** the console, oldest line first *)
  stdout : list string;
  (** files written by the notebook's statements *)
  artifacts : list string;
}.

(** The calls into the collaborators that mutate or observe the state. *)
Inductive Call : Type :=
| CModelTrain
| CModelEval
| CForward (grad_enabled : bool)
| CBackward
| COptimizerStep
| CSchedulerStep
| CZeroGrad
| CMetricReset
| CAddBatch (predictions : Preds) (references : Tensor Scalar)
| CCompute (num_labels : nat) (ignore_index : Z) (reduce_labels : bool)
| CPrint (line : string).

(** A run's state: the machine, and the journal of calls made so far, each
    with the machine as it was when the call was entered. *)
Definition St : Type := Machine * list (Call * Machine).

(** Statements: state transformers that may raise.  The state survives an
    exception (what was printed stays printed). *)
Definition M (A : Type) : Type := St → result A * St.

Definition ret {A} (a : A) : M A := λ st, (Ok a, st).

Definition bind {A B} (c : M A) (k : A → M B) : M B :=
  λ st, match c st with
        | (Ok a, st') => k a st'
        | (Raise e, st') => (Raise e, st')
        end.

Definition lift {A} (r : result A) : M A := λ st, (r, st).

Definition get_machine : M Machine := λ st, (Ok st.1, st).

Definition update (f : Machine → Machine) : M unit :=
  λ st, (Ok tt, (f st.1, st.2)).

Definition call (c : Call) : M unit :=
  λ st, (Ok tt, (st.1, st.2 ++ [(c, st.1)])).

End Notebook.

Notation "'let!' x := c 'in' k" := (bind c (λ x, k))
  (at level 10, x name, c at level 100, k at level 200).
Notation "c ;; k" := (bind c (λ _, k))
  (at level 100, k at level 200, right associativity).

(** ** The notebook's statements *)

Section Driver.
Context `{F : Framework}.

Definition set_weights_opt (w : Weights) (o : OptState) (m : Machine) : Machine :=
  mkMachine w (grads m) o (ambient m) (training m) (lr m) (scheduler m)
    (accumulator m) (stdout m) (artifacts m).

Definition set_grads (g : Grads) (m : Machine) : Machine :=
  mkMachine (weights m) g (opt_state m) (ambient m) (training m) (lr m)
    (scheduler m) (accumulator m) (stdout m) (artifacts m).

Definition set_ambient (x : Ambient) (m : Machine) : Machine :=
  mkMachine (weights m) (grads m) (opt_state m) x (training m) (lr m)
    (scheduler m) (accumulator m) (stdout m) (artifacts m).

Definition set_training (b : bool) (m : Machine) : Machine :=
  mkMachine (weights m) (grads m) (opt_state m) (ambient m) b (lr m)
    (scheduler m) (accumulator m) (stdout m) (artifacts m).

Definition set_schedule (s : Scheduler) (m : Machine) : Machine :=
  mkMachine (weights m) (grads m) (opt_state m) (ambient m) (training m)
    (scheduler_lr s) s (accumulator m) (stdout m) (artifacts m).

Definition set_accumulator (a : list (Preds * Tensor Scalar)) (m : Machine)
  : Machine :=
  mkMachine (weights m) (grads m) (opt_state m) (ambient m) (training m)
    (lr m) (scheduler m) a (stdout m) (artifacts m).

Definition set_stdout (out : list string) (m : Machine) : Machine :=
  mkMachine (weights m) (grads m) (opt_state m) (ambient m) (training m)
    (lr m) (scheduler m) (accumulator m) out (artifacts m).

(** *** Loaders *)

Record Loader : Type := mkLoader {
  dataset : SegmentationDataset RawArray PILImage Scalar;
  batch_size : nat;
  shuffle : bool;
}.

(** [DataLoader(dataset, batch_size=..., shuffle=...)]; a batch size that is
    not positive is refused, and so is shuffling over an empty dataset: the
    random sampler wants a positive number of samples. *)
Definition DataLoader (d : SegmentationDataset RawArray PILImage Scalar)
    (batch_size : nat) (shuffle : bool) : result Loader :=
  if batch_size =? 0 then Raise ValueError
  else if shuffle && (dataset_len d =? 0) then Raise ValueError
  else Ok (mkLoader d batch_size shuffle).

(** [len(loader)] *)
Definition len_loader (ld : Loader) : nat :=
  loader_len (dataset_len (dataset ld)) (batch_size ld).

(** One batch: the samples at the given indices, collated. *)
Definition fetch (ld : Loader) (indices : list nat)
  : result (gmap string (Tensor Scalar)) :=
  rbind (rmap (getitem image_fromarray (dataset ld)) indices) default_collate.

(** The index batches of a pass, drawn when iteration begins: the loader's
    pass over the dataset's length, on the framework's generator. *)
Definition draw_batches (ld : Loader) : M (list (list nat)) :=
  λ st,
    let '(batches, x') :=
      loader_pass randperm (shuffle ld) (batch_size ld)
        (dataset_len (dataset ld)) (ambient st.1) in
    (Ok batches, (set_ambient x' st.1, st.2)).

Fixpoint for_each {A} (xs : list A) (body : A → M unit) : M unit :=
  match xs with
  | [] => ret tt
  | x :: rest => body x ;; for_each rest body
  end.

(** [for batch in loader: body]; each batch is fetched when the loop
    reaches it. *)
Definition for_batches (ld : Loader)
    (body : gmap string (Tensor Scalar) → M unit) : M unit :=
  let! batches := draw_batches ld in
  for_each batches
    (λ indices, let! batch := lift (fetch ld indices) in body batch).

(** *** Calls on the model, the optimizer, the scheduler and the metric *)

Definition model_train : M unit :=
  call CModelTrain ;; update (set_training true).

Definition model_eval : M unit :=
  call CModelEval ;; update (set_training false).

Definition model_call (grad_enabled : bool)
    (batch : gmap string (Tensor Scalar)) : M Outputs :=
  call (CForward grad_enabled) ;;
  let! m := get_machine in
  let '(r, x') :=
    model_forward (training m) grad_enabled (weights m) batch (ambient m) in
  update (set_ambient x') ;;
  lift r.

Definition loss_backward (outputs : Outputs) : M unit :=
  call CBackward ;;
  let! g := lift (loss_gradient outputs) in
  update (λ m, set_grads (grad_accumulate (grads m) g) m).

Definition optimizer_step : M unit :=
  call COptimizerStep ;;
  update (λ m,
    let '(w, o) := adamw_update (lr m) (weights m) (grads m) (opt_state m) in
    set_weights_opt w o m).

Definition lr_scheduler_step : M unit :=
  call CSchedulerStep ;;
  update (λ m, set_schedule (scheduler_advance (scheduler m)) m).

Definition optimizer_zero_grad : M unit :=
  call CZeroGrad ;; update (set_grads grad_zero).

Definition metric_reset : M unit :=
  call CMetricReset ;; update (set_accumulator []).

Definition metric_add_batch (predictions : Preds)
    (references : Tensor Scalar) : M unit :=
  call (CAddBatch predictions references) ;;
  update (λ m, set_accumulator (accumulator m ++ [(predictions, references)]) m).

Definition metric_compute (num_labels : nat) (ignore_index : Z)
    (reduce_labels : bool) : M (gmap string float) :=
  call (CCompute num_labels ignore_index reduce_labels) ;;
  let! m := get_machine in
  let '(r, acc') :=
    mean_iou_compute (accumulator m) num_labels ignore_index reduce_labels in
  update (set_accumulator acc') ;;
  lift r.

Definition print (line : string) : M unit :=
  call (CPrint line) ;; update (λ m, set_stdout (stdout m ++ [line]) m).

(** *** The epoch loop (the last cell) *)

(** The body of [for batch in train_loader]. *)
Definition train_step (batch : gmap string (Tensor Scalar)) : M unit :=
  let batch := to_device <$> batch in
  let! outputs := model_call true batch in
  loss_backward outputs ;;
  optimizer_step ;;
  lr_scheduler_step ;;
  optimizer_zero_grad.

(** The body of [for batch in val_loader]; the forward pass is inside
    [with torch.no_grad()]. *)
Definition val_step (batch : gmap string (Tensor Scalar)) : M unit :=
  let batch := to_device <$> batch in
  let! outputs := model_call false batch in
  let! preds := lift (logits_argmax outputs) in
  let! labels := lift (getkey batch "labels") in
  metric_add_batch preds labels.

(** The training part of an epoch. *)
Definition training_pass (train_loader : Loader) : M unit :=
  model_train ;;
  for_batches train_loader train_step.

(** The validation part of an epoch, up to the metric's value. *)
Definition validation_pass (val_loader : Loader) : M float :=
  model_eval ;;
  metric_reset ;;
  for_batches val_loader val_step ;;
  let! results := metric_compute config_num_labels 255 false in
  lift (getkey results "mean_iou").

(** The notebook's global variables that the loop reads. *)
Record Globals : Type := mkGlobals {
  train_loader : Loader;
  val_loader : Loader;
  num_epochs : nat;
  num_steps : nat;
}.

(** The body of [for epoch in range(num_epochs)]. *)
Definition run_epoch (g : Globals) (epoch : nat) : M unit :=
  training_pass (train_loader g) ;;
  let! miou := validation_pass (val_loader g) in
  print (report_line (epoch + 1) (num_epochs g) miou).

Definition epoch_loop (g : Globals) : M unit :=
  for_each (seq 0 (num_epochs g)) (run_epoch g).

(** *** The cells before the loop *)

Definition checkpoint : string := "nvidia/segformer-b0-finetuned-ade-512-512".

(** The peak learning rate, [5e-5]: the nearest binary64 number. *)
Definition peak_lr : float := 5e-5.

(** [d.select(indices)]: an empty dataset is returned as it is, without a
    look at the indices; on any other, an index out of range raises
    IndexError. *)
Definition hf_select {A} (indices : list nat) (d : list A) : result (list A) :=
  match d with
  | [] => Ok []
  | _ :: _ => rmap (getindex d) indices
  end.

(** Every cell up to the loop, in the order of the cells: the two subsets,
    the processor and the model, the loaders, the optimizer and the
    scheduler, the metric, the move of the model to the device.  The result
    is the global variables and the initial state.  [hub] is what
    [load_dataset] returned, [x0] the framework state.  The optimizer is
    built on the parameters before the move; the move changes them in
    place. *)
Definition setup (hub : gmap string (list (gmap string RawArray)))
    (x0 : Ambient) : result (Globals * Machine) :=
  rbind (getkey hub "train") (λ train,
  rbind (hf_select (seq 0 100) (hf_shuffle 42 train)) (λ train_ds,
  rbind (getkey hub "validation") (λ validation,
  rbind (hf_select (seq 0 50) validation) (λ val_ds,
  rbind (processor_from_pretrained checkpoint) (λ processor,
  rbind (model_from_pretrained checkpoint) (λ w,
  rbind (DataLoader (mkDataset train_ds processor) 4 true) (λ train_loader,
  rbind (DataLoader (mkDataset val_ds processor) 2 false) (λ val_loader,
  let num_epochs := 5 in
  let num_steps := num_epochs * len_loader train_loader in
  let sched := get_scheduler peak_lr 0 num_steps in
  rbind (evaluate_load "mean_iou") (λ _,
  rbind (model_to_device w) (λ w',
  Ok (mkGlobals train_loader val_loader num_epochs num_steps,
      mkMachine w' grad_zero (adamw_init w) x0 true (scheduler_lr sched) sched
        [] [] []))))))))))).

(** The whole notebook. *)
Definition notebook (hub : gmap string (list (gmap string RawArray)))
    (x0 : Ambient) : result (result unit * St) :=
  rbind (setup hub x0) (λ '(g, m), Ok (epoch_loop g (m, []))).

End Driver.

(** ** Concrete collaborators

    A small, fully executable set of collaborators, used to run the notebook
    on concrete data.  Tensors hold integers; the weight is one integer; the
    generator state is a counter; the metric returns a fixed value. *)

Module Toy.

(** An encoder in the manner of the SegFormer processor: two fields, each
    with a leading batch dimension of size 1. *)
Definition encode (image mask : nat) : result (gmap string (Tensor Z)) :=
  Ok (<["pixel_values" := mkTensor [1; 3; 2; 2] (replicate 12 (Z.of_nat image))]>
      (<["labels" := mkTensor [1; 2; 2] (replicate 4 (Z.of_nat mask))]> ∅)).

(** An encoder for single-channel images: the channel dimension has size 1
    as well. *)
Definition encode_gray (image mask : nat) : result (gmap string (Tensor Z)) :=
  Ok (<["pixel_values" := mkTensor [1; 1; 2; 2] (replicate 4 (Z.of_nat image))]>
      (<["labels" := mkTensor [1; 2; 2] (replicate 4 (Z.of_nat mask))]> ∅)).

(** Stacking along a new leading dimension; the fields are those of the
    first sample. *)
Definition collate (samples : list (gmap string (Tensor Z)))
  : result (gmap string (Tensor Z)) :=
  match samples with
  | [] => Raise ValueError
  | first :: _ =>
      Ok (map_imap (λ k t,
            Some (mkTensor (length samples :: shape t)
                    (concat ((λ s, default [] (data <$> s !! k)) <$> samples))))
          first)
  end.

(** A generator of permutations: the identity and the reversal, in turn. *)
Definition permute (n : nat) (x : nat) : list nat * nat :=
  (if Nat.even x then seq 0 n else rev (seq 0 n), S x).

(** A generator that always returns the identity. *)
Definition permute_const (n : nat) (x : nat) : list nat * nat :=
  (seq 0 n, x).

Definition raw_item (i : nat) : gmap string nat :=
  <["image" := i]> (<["segmentation_mask" := i + 1]> ∅).

(** A hub dataset with [n] training and [k] validation items. *)
Definition hub (n k : nat) : gmap string (list (gmap string nat)) :=
  <["train" := raw_item <$> seq 0 n]>
  (<["validation" := raw_item <$> seq 1000 k]> ∅).

(** The collaborators; [miou] is the value the metric reports. *)
Definition framework (miou : float) : Framework := {|
  RawArray := nat;
  PILImage := nat;
  Scalar := Z;
  Weights := Z;
  Grads := Z;
  OptState := nat;
  Ambient := nat;
  Outputs := Z * bool;
  Preds := nat;
  image_fromarray := λ a, Ok a;
  hf_shuffle := λ seed l, rev l;
  processor_from_pretrained := λ _, Ok encode;
  model_from_pretrained := λ _, Ok 0%Z;
  config_num_labels := 150;
  adamw_init := λ _, 0;
  evaluate_load := λ _, Ok tt;
  model_to_device := λ w, Ok w;
  default_collate := collate;
  randperm := permute;
  to_device := λ t, t;
  model_forward := λ training grad_enabled w batch x,
    (Ok (w, grad_enabled), if training then S x else x);
  loss_gradient := λ out, if out.2 then Ok 1%Z else Raise RuntimeError;
  grad_zero := 0%Z;
  grad_accumulate := Z.add;
  adamw_update := λ rate w g o, ((w - g)%Z, S o);
  logits_argmax := λ out, Ok (length [out]);
  mean_iou_compute := λ acc n ignore reduce,
    (Ok (<["mean_iou" := miou]> ∅), []);
|}.

(** A small configuration for runs of the epoch loop alone: six training
    items in batches of four, three validation items in batches of two, two
    epochs. *)
Definition globals : @Globals (framework 0.5) :=
  @mkGlobals (framework 0.5)
    (@mkLoader (framework 0.5) (mkDataset (raw_item <$> seq 0 6) encode) 4 true)
    (@mkLoader (framework 0.5) (mkDataset (raw_item <$> seq 0 3) encode) 2 false)
    2 4.

Definition machine : @Machine (framework 0.5) :=
  @mkMachine (framework 0.5) 0%Z 0%Z 0 0 true
    (scheduler_lr (get_scheduler peak_lr 0 4)) (get_scheduler peak_lr 0 4)
    [] [] [].

(** The adapter over two raw items, with either encoder. *)
Definition rgb_adapter : SegmentationDataset nat nat Z :=
  mkDataset [raw_item 3; raw_item 8] encode.

Definition gray_adapter : SegmentationDataset nat nat Z :=
  mkDataset [raw_item 3; raw_item 8] encode_gray.

End Toy.

(** * Vocabulary of the properties *)

(** The property claimed for [__getitem__]: each returned tensor is the
    encoded one without its leading batch dimension, nothing else
    changed. *)
Definition strips_only_batch_dimension {Array Image E}
    (fromarray : Array → result Image)
    (self : SegmentationDataset Array Image E) : Prop :=
  ∀ idx encoded sample,
    encode_item fromarray self idx = Ok encoded →
    getitem fromarray self idx = Ok sample →
    ∀ k t0, encoded !! k = Some t0 → sample !! k = Some (squeeze_dim0 t0).

(** The rate a scheduler sets after [k] steps from [s0]. *)
Definition rate_at (s0 : Scheduler) (k : nat) : float :=
  scheduler_lr (Nat.iter k scheduler_advance s0).




Section Vocabulary.
Context `{F : Framework}.

(** The subset sizes as the specification words them: 100 training samples
    and 50 validation samples. *)
Definition claimed_subset_sizes (g : Globals) : Prop :=
  dataset_len (dataset (train_loader g)) = 100
  ∧ dataset_len (dataset (val_loader g)) = 50.

(** [wp c Q E st]: run from [st], the statement [c] either returns [a] in a
    state satisfying [Q a], or raises in a state satisfying [E]. *)
Definition wp {A} (c : M A) (Q : A → St → Prop) (E : St → Prop) (st : St)
  : Prop :=
  match c st with
  | (Ok a, st') => Q a st'
  | (Raise _, st') => E st'
  end.

(** Calls that do not train: the switch to inference mode, a forward pass
    without gradient tracking, and the calls on the metric. *)
Definition inference_call (c : Call) : bool :=
  match c with
  | CModelEval | CForward false | CMetricReset | CAddBatch _ _
  | CCompute _ _ _ => true
  | _ => false
  end.

(** Since the state [(m0, log0)]: the weights, the gradients, the optimizer
    and the rate are those of [m0], and every call made was an inference
    call that found the weights of [m0]. *)
Definition frozen_since (m0 : Machine) (log0 : list (Call * Machine))
    (st : St) : Prop :=
  weights st.1 = weights m0
  ∧ grads st.1 = grads m0
  ∧ opt_state st.1 = opt_state m0
  ∧ lr st.1 = lr m0
  ∧ scheduler st.1 = scheduler m0
  ∧ stdout st.1 = stdout m0
  ∧ artifacts st.1 = artifacts m0
  ∧ ∃ new, st.2 = log0 ++ new
           ∧ Forall (λ e, inference_call e.1 = true
                          ∧ weights e.2 = weights m0) new.

(** A journal entry for a backward pass found the accumulators clear. *)
Definition backward_sees_zero (e : Call * Machine) : Prop :=
  e.1 = CBackward → grads e.2 = grad_zero.

(** Every scheduler step in a journal is directly followed by the clearing
    of the gradients. *)
Definition zero_grad_follows (log : list (Call * Machine)) : Prop :=
  ∀ i m, log !! i = Some (CSchedulerStep, m) →
         ∃ m', log !! S i = Some (CZeroGrad, m').

(** The journal entries [new], made since some point of a run, respect the
    discipline. *)
Definition hygienic (new : list (Call * Machine)) : Prop :=
  Forall backward_sees_zero new
  ∧ zero_grad_follows new
  ∧ ∀ m, last new ≠ Some (CSchedulerStep, m).

Definition hygienic_since (log0 : list (Call * Machine)) (st : St) : Prop :=
  ∃ new, st.2 = log0 ++ new ∧ hygienic new.

(** Calls of the training part of an epoch. *)
Definition training_call (c : Call) : bool :=
  match c with
  | CModelTrain | CForward true | CBackward | COptimizerStep
  | CSchedulerStep | CZeroGrad => true
  | _ => false
  end.

(** Calls of the body of the validation loop. *)
Definition val_step_call (c : Call) : bool :=
  match c with
  | CForward false | CAddBatch _ _ => true
  | _ => false
  end.

Definition is_compute (c : Call) : bool :=
  match c with CCompute _ _ _ => true | _ => false end.

(** The (prediction, reference) pairs handed to the metric in a journal, in
    order. *)
Definition added_pairs (log : list (Call * Machine))
  : list (Preds * Tensor Scalar) :=
  omap (λ e : Call * Machine,
          match e.1 with
          | CAddBatch p r => Some (p, r)
          | _ => None
          end) log.

(** The journal of an epoch, while its training part runs. *)
Definition in_training (log0 : list (Call * Machine)) (st : St) : Prop :=
  ∃ pre, st.2 = log0 ++ pre
         ∧ Forall (λ e, training_call e.1 = true) pre.

(** The journal of an epoch, while its validation loop runs: the training
    calls, the switch to inference mode, the reset, then calls of the
    validation loop; the accumulator holds the pairs added since. *)
Definition in_validation (log0 : list (Call * Machine)) (st : St) : Prop :=
  ∃ pre mE mR vals,
    st.2 = log0 ++ pre ++ (CModelEval, mE) :: (CMetricReset, mR) :: vals
    ∧ Forall (λ e, training_call e.1 = true) pre
    ∧ Forall (λ e, val_step_call e.1 = true) vals
    ∧ accumulator st.1 = added_pairs vals.

(** The journal of an epoch from the metric's computation on; [tail] is
    what follows the computation. *)
Definition after_compute (log0 : list (Call * Machine))
    (tail : list (Call * Machine)) (st : St) : Prop :=
  ∃ pre mE mR vals mC,
    st.2 = log0 ++ pre ++ (CModelEval, mE) :: (CMetricReset, mR) :: vals
                ++ (CCompute config_num_labels 255 false, mC) :: tail
    ∧ Forall (λ e, training_call e.1 = true) pre
    ∧ Forall (λ e, val_step_call e.1 = true) vals
    ∧ accumulator mC = added_pairs vals.

(** The rates found by the optimizer updates of a journal, in order. *)
Definition optimizer_rates (log : list (Call * Machine))
  : list float :=
  omap (λ e : Call * Machine,
          match e.1 with
          | COptimizerStep => Some (lr e.2)
          | _ => None
          end) log.

(** A value the metric provider can report under the key [mean_iou]. *)
Definition metric_value (v : float) : Prop :=
  ∃ acc n ignore reduce results acc',
    mean_iou_compute acc n ignore reduce = (Ok results, acc')
    ∧ results !! "mean_iou" = Some v.


(** The state of a run after [k] training steps and the reports of the
    metric values [vs], started with scheduler [s0], console [out0], files
    [art0] and a journal whose updates found the rates [rates0]. *)
Definition progress (num_epochs : nat) (s0 : Scheduler)
    (out0 art0 : list string) (rates0 : list float)
    (k : nat) (vs : list float) (st : St) : Prop :=
  scheduler st.1 = Nat.iter k scheduler_advance s0
  ∧ lr st.1 = scheduler_lr (scheduler st.1)
  ∧ optimizer_rates st.2 = rates0 ++ (rate_at s0 <$> seq 0 k)
  ∧ stdout st.1
    = out0 ++ imap (λ i v, report_line (i + 1) num_epochs v) vs
  ∧ artifacts st.1 = art0.

(** The console of a complete run. *)
Definition complete_console
    (r : result (result unit * St)) : option (list string) :=
  match r with
  | Ok (Ok _, st) => Some (stdout st.1)
  | _ => None
  end.

End Vocabulary.

(** ** Vocabulary of the further properties *)

(** The number of elements a shape describes. *)
Definition numel (dims : list nat) : nat := foldr Nat.mul 1 dims.

(** A tensor holds as many elements as its shape describes. *)
Definition well_formed {E} (t : Tensor E) : Prop :=
  length (data t) = numel (shape t).

(** The four calls of a training step that follow its forward pass. *)
Definition is_backward `{F : Framework} (c : Call) : bool :=
  match c with CBackward => true | _ => false end.

Definition is_optimizer_step `{F : Framework} (c : Call) : bool :=
  match c with COptimizerStep => true | _ => false end.

Definition is_scheduler_step `{F : Framework} (c : Call) : bool :=
  match c with CSchedulerStep => true | _ => false end.

Definition is_zero_grad `{F : Framework} (c : Call) : bool :=
  match c with CZeroGrad => true | _ => false end.

Section LoopVocabulary.
Context `{F : Framework}.

(** The machine after [loss.backward()] added the gradient [g]. *)
Definition after_backward (g : Grads) (m : Machine) : Machine :=
  set_grads (grad_accumulate (grads m) g) m.

(** The machine after [optimizer.step()]. *)
Definition after_update (m : Machine) : Machine :=
  let '(w, o) := adamw_update (lr m) (weights m) (grads m) (opt_state m) in
  set_weights_opt w o m.

(** The machine after [lr_scheduler.step()]. *)
Definition after_schedule (m : Machine) : Machine :=
  set_schedule (scheduler_advance (scheduler m)) m.

(** The machine after a training step whose forward pass left the framework
    state [x'] and whose loss has gradient [g]. *)
Definition train_step_machine (m : Machine) (x' : Ambient) (g : Grads)
  : Machine :=
  set_grads grad_zero
    (after_schedule (after_update (after_backward g (set_ambient x' m)))).

(** The journal entries of that step. *)
Definition train_step_journal (m : Machine) (x' : Ambient) (g : Grads)
  : list (Call * Machine) :=
  [ (CForward true, m);
    (CBackward, set_ambient x' m);
    (COptimizerStep, after_backward g (set_ambient x' m));
    (CSchedulerStep, after_update (after_backward g (set_ambient x' m)));
    (CZeroGrad,
     after_schedule (after_update (after_backward g (set_ambient x' m)))) ].

(** The outcome of a training step, from the outcome of its forward pass. *)
Definition train_step_outcome (m : Machine) (log : list (Call * Machine))
    (r : result Outputs) (x' : Ambient) : result unit * St :=
  match r with
  | Raise e => (Raise e, (set_ambient x' m, log ++ [(CForward true, m)]))
  | Ok outputs =>
      match loss_gradient outputs with
      | Raise e =>
          (Raise e,
           (set_ambient x' m,
            log ++ [(CForward true, m); (CBackward, set_ambient x' m)]))
      | Ok g =>
          (Ok tt, (train_step_machine m x' g,
                   log ++ train_step_journal m x' g))
      end
  end.

(** The outcome of a validation step on [batch] (already on the device),
    from the outcome of its forward pass. *)
Definition val_step_outcome (batch : gmap string (Tensor Scalar))
    (m : Machine) (log : list (Call * Machine))
    (r : result Outputs) (x' : Ambient) : result unit * St :=
  let stopped := (set_ambient x' m, log ++ [(CForward false, m)]) in
  match r with
  | Raise e => (Raise e, stopped)
  | Ok outputs =>
      match logits_argmax outputs with
      | Raise e => (Raise e, stopped)
      | Ok preds =>
          match batch !! "labels" with
          | None => (Raise (KeyError "labels"), stopped)
          | Some labels =>
              (Ok tt,
               (set_accumulator (accumulator m ++ [(preds, labels)])
                  (set_ambient x' m),
                log ++ [(CForward false, m);
                        (CAddBatch preds labels, set_ambient x' m)]))
          end
      end
  end.

(** The entries journalled since [log0] all satisfy [φ]. *)
Definition journal_since (φ : Call * Machine → Prop)
    (log0 : list (Call * Machine)) (st : St) : Prop :=
  ∃ new, st.2 = log0 ++ new ∧ Forall φ new.

(** The number of entries of a journal whose call satisfies [p]. *)
Fixpoint count_calls (p : Call → bool) (log : list (Call * Machine)) : nat :=
  match log with
  | [] => 0
  | e :: rest => (if p e.1 then 1 else 0) + count_calls p rest
  end.

(** A forward pass with gradient tracking found the model in training
    mode, one without found it in inference mode. *)
Definition forward_mode_ok (e : Call * Machine) : Prop :=
  ∀ grad_enabled, e.1 = CForward grad_enabled → training e.2 = grad_enabled.

(** Since the state [(m0, log0)]: the metric accumulator, the console and
    the files are those of [m0], the model is in training mode, and every
    call made was a training call that found them so. *)
Definition training_frame (m0 : Machine) (log0 : list (Call * Machine))
    (st : St) : Prop :=
  accumulator st.1 = accumulator m0
  ∧ stdout st.1 = stdout m0
  ∧ artifacts st.1 = artifacts m0
  ∧ training st.1 = true
  ∧ journal_since (λ e, training_call e.1 = true
                        ∧ accumulator e.2 = accumulator m0
                        ∧ stdout e.2 = stdout m0
                        ∧ artifacts e.2 = artifacts m0) log0 st.

(** Every scheduler step of a journal comes directly after an optimizer
    step. *)
Definition update_precedes_schedule (log : list (Call * Machine)) : Prop :=
  ∀ i m, log !! i = Some (CSchedulerStep, m) →
         ∃ j m', i = S j ∧ log !! j = Some (COptimizerStep, m').

(** Since [log0]: as many scheduler steps and clearings as optimizer
    steps, and [slack] more backward passes. *)
Definition lockstep (log0 : list (Call * Machine)) (slack : nat) (st : St)
  : Prop :=
  ∃ new, st.2 = log0 ++ new
    ∧ count_calls is_scheduler_step new = count_calls is_optimizer_step new
    ∧ count_calls is_zero_grad new = count_calls is_optimizer_step new
    ∧ count_calls is_backward new
      = count_calls is_optimizer_step new + slack
    ∧ update_precedes_schedule new.

(** The console holds [out0] and then the reports of the values [vs], for
    epochs 1, 2, ...; the files are [art0]. *)
Definition console_is (N : nat) (out0 art0 : list string) (vs : list float)
    (st : St) : Prop :=
  stdout st.1 = out0 ++ imap (λ i v, report_line (i + 1) N v) vs
  ∧ artifacts st.1 = art0.

(** The state of a validation loop after [i] batches. *)
Definition pairs_so_far (log0 : list (Call * Machine)) (i : nat) (st : St)
  : Prop :=
  length (accumulator st.1) = i ∧ ∃ new, st.2 = log0 ++ new.

End LoopVocabulary.

(** An adapter whose only raw item has no mask field. *)
Definition maskless_adapter : SegmentationDataset nat nat Z :=
  mkDataset [<["image" := 5]> ∅] Toy.encode.

(** * Properties *)

(** ** Results and comprehensions *)

Lemma rbind_ok {A B} (r : result A) (f : A → result B) (b : B) :
  rbind r f = Ok b → ∃ a, r = Ok a ∧ f a = Ok b.
Proof. destruct r as [a|e]; simpl; [eauto | discriminate]. Qed.

Lemma getkey_ok {V} (d : gmap string V) key v :
  getkey d key = Ok v → d !! key = Some v.
Proof. unfold getkey. destruct (d !! key); congruence. Qed.

Lemma getindex_ok {A} (xs : list A) i x :
  getindex xs i = Ok x → xs !! i = Some x.
Proof. unfold getindex. destruct (xs !! i); congruence. Qed.

Lemma rmap_ok_length {A B} (f : A → result B) xs ys :
  rmap f xs = Ok ys → length ys = length xs.
Proof.
  revert ys. induction xs as [|x xs IH]; simpl; intros ys H.
  - by inversion H.
  - apply rbind_ok in H as (y & _ & H).
    apply rbind_ok in H as (ys' & Hys & H).
    inversion H; subst. simpl. f_equal. by apply IH.
Qed.

Lemma rmap_getindex_seq {A} (d : list A) n :
  n ≤ length d → rmap (getindex d) (seq 0 n) = Ok (take n d).
Proof.
  assert (∀ k, k + n ≤ length d →
            rmap (getindex d) (seq k n) = Ok (take n (drop k d))) as Hgen.
  { induction n as [|n IH]; intros k Hk; simpl.
    - done.
    - destruct (lookup_lt_is_Some_2 d k) as [x Hx]; [lia|].
      unfold getindex at 1. rewrite Hx. simpl.
      rewrite IH by lia. simpl.
      rewrite (drop_S _ _ _ Hx). done. }
  intros Hn. rewrite (Hgen 0) by lia. by rewrite drop_0.
Qed.

(** ** The dataset adapter *)

Section AdapterFacts.
Context {Array Image E : Type}.
Variable fromarray : Array → result Image.
Implicit Types self : SegmentationDataset Array Image E.

(** A successful [__getitem__] is a successful encoding, squeezed. *)
Lemma getitem_ok self idx sample :
  getitem fromarray self idx = Ok sample →
  ∃ encoded, encode_item fromarray self idx = Ok encoded
             ∧ sample = squeeze <$> encoded.
Proof.
  unfold getitem. intros H. apply rbind_ok in H as (encoded & He & H).
  exists encoded. split; [done | congruence].
Qed.

(** An encoding comes from the encoder, applied to the item at a valid
    index. *)
Lemma encode_item_ok self idx encoded :
  encode_item fromarray self idx = Ok encoded →
  idx < dataset_len self
  ∧ ∃ image mask, processor self image mask = Ok encoded.
Proof.
  unfold encode_item. intros H.
  apply rbind_ok in H as (item & Hitem & H).
  apply rbind_ok in H as (a & _ & H).
  apply rbind_ok in H as (image & _ & H).
  apply rbind_ok in H as (b & _ & H).
  apply rbind_ok in H as (mask & _ & H).
  split; [| by eauto].
  apply getindex_ok in Hitem. by apply lookup_lt_Some in Hitem.
Qed.

Lemma filter_batch_dimension (rest : list nat) :
  Forall (λ d, d ≠ 1) rest → filter (λ d, d ≠ 1) (1 :: rest) = rest.
Proof.
  intros Hrest. rewrite filter_cons_False by (intros ?; congruence).
  induction Hrest as [|d rest Hd _ IH]; [done|].
  rewrite filter_cons_True by done. by rewrite IH.
Qed.

(** C4 (as amended).  [__getitem__] returns one tensor per encoded tensor,
    under the same key, with the same elements, and with every dimension of
    size 1 removed.  When the only dimension of size 1 of an encoded tensor
    is its leading batch dimension, exactly that dimension is stripped and
    the other dimensions are unchanged. *)
Theorem getitem_squeezes self idx sample :
  getitem fromarray self idx = Ok sample →
  ∃ encoded,
    encode_item fromarray self idx = Ok encoded
    ∧ dom sample = dom encoded
    ∧ ∀ k t0, encoded !! k = Some t0 →
        ∃ t, sample !! k = Some t
             ∧ data t = data t0
             ∧ shape t = filter (λ d, d ≠ 1) (shape t0)
             ∧ ∀ rest, shape t0 = 1 :: rest → Forall (λ d, d ≠ 1) rest →
                 shape t = rest ∧ t = squeeze_dim0 t0.
Proof.
  intros H. apply getitem_ok in H as (encoded & He & ->).
  exists encoded. split; [done|]. split; [apply dom_fmap_L|].
  intros k t0 Hk. exists (squeeze t0).
  rewrite lookup_fmap, Hk. simpl.
  split; [done|]. split; [done|]. split; [done|].
  intros rest Hshape Hrest. destruct t0 as [sh elems]. simpl in *. subst sh.
  unfold squeeze, squeeze_dim0. simpl.
  rewrite filter_batch_dimension by done. done.
Qed.

(** C5.  For any two indices at which [__getitem__] returns, the two
    returned mappings have the same key set: the one the encoder's
    configuration fixes. *)
Theorem getitem_keys_stable self (keys : gset string) i j si sj :
  keys_fixed_by_configuration (processor self) keys →
  getitem fromarray self i = Ok si →
  getitem fromarray self j = Ok sj →
  i < dataset_len self ∧ j < dataset_len self
  ∧ dom si = keys ∧ dom sj = keys ∧ dom si = dom sj.
Proof.
  intros Hkeys Hi Hj.
  apply getitem_ok in Hi as (ei & Hei & ->).
  apply getitem_ok in Hj as (ej & Hej & ->).
  apply encode_item_ok in Hei as (Hlti & imi & mki & Hpi).
  apply encode_item_ok in Hej as (Hltj & imj & mkj & Hpj).
  rewrite !dom_fmap_L.
  rewrite (Hkeys _ _ _ Hpi), (Hkeys _ _ _ Hpj). done.
Qed.

End AdapterFacts.

(** C4, counterexample.  With an encoder whose pixel tensor has shape
    (1, 1, 2, 2), [__getitem__] returns shape (2, 2): the channel dimension
    is stripped together with the batch dimension. *)
Lemma getitem_strips_more_than_batch :
  ¬ strips_only_batch_dimension (λ a, Ok a) Toy.gray_adapter.
Proof.
  intros Hclaim.
  destruct (getitem (λ a : nat, Ok a) Toy.gray_adapter 0) as [sample|e] eqn:Hs;
    [| by vm_compute in Hs].
  destruct (encode_item (λ a : nat, Ok a) Toy.gray_adapter 0) as [encoded|e] eqn:He;
    [| by vm_compute in He].
  pose proof (Hclaim 0 encoded sample He Hs "pixel_values"
                (mkTensor [1; 1; 2; 2] (replicate 4 3%Z))) as H.
  assert (encoded !! "pixel_values"
          = Some (mkTensor [1; 1; 2; 2] (replicate 4 3%Z))) as Hk.
  { vm_compute in He. inversion He. by vm_compute. }
  specialize (H Hk).
  assert (sample !! "pixel_values"
          = Some (mkTensor [2; 2] (replicate 4 3%Z))) as Hk'.
  { vm_compute in Hs. inversion Hs. by vm_compute. }
  rewrite Hk' in H. by vm_compute in H.
Qed.

(** An instance: with the three-channel encoder, the sample at index 1 has
    shapes (3, 2, 2) and (2, 2). *)
Lemma getitem_squeezes_witness :
  ∃ sample, getitem (λ a : nat, Ok a) Toy.rgb_adapter 1 = Ok sample
    ∧ (shape <$> sample !! "pixel_values") = Some [3; 2; 2]
    ∧ (shape <$> sample !! "labels") = Some [2; 2].
Proof.
  destruct (getitem (λ a : nat, Ok a) Toy.rgb_adapter 1) as [sample|e] eqn:Hs;
    [| by vm_compute in Hs].
  exists sample. split; [done|].
  destruct (getitem_squeezes _ _ _ _ Hs) as (encoded & He & _ & Hall).
  vm_compute in He. inversion He as [He']. clear He.
  split.
  - destruct (Hall "pixel_values" (mkTensor [1; 3; 2; 2] (replicate 12 8%Z)))
      as (t & -> & _ & _ & Hrest); [by rewrite <- He'; vm_compute|].
    simpl. f_equal. apply (Hrest [3; 2; 2]); [done|].
    repeat constructor; lia.
  - destruct (Hall "labels" (mkTensor [1; 2; 2] (replicate 4 9%Z)))
      as (t & -> & _ & _ & Hrest); [by rewrite <- He'; vm_compute|].
    simpl. f_equal. apply (Hrest [2; 2]); [done|].
    repeat constructor; lia.
Defined.

(** An instance: the samples at indices 0 and 1 of the three-channel
    adapter have the same keys. *)
Lemma getitem_keys_stable_witness :
  ∃ si sj, getitem (λ a : nat, Ok a) Toy.rgb_adapter 0 = Ok si
    ∧ getitem (λ a : nat, Ok a) Toy.rgb_adapter 1 = Ok sj
    ∧ dom si = dom sj.
Proof.
  destruct (getitem (λ a : nat, Ok a) Toy.rgb_adapter 0) as [si|e] eqn:Hi;
    [| by vm_compute in Hi].
  destruct (getitem (λ a : nat, Ok a) Toy.rgb_adapter 1) as [sj|e] eqn:Hj;
    [| by vm_compute in Hj].
  exists si, sj. split; [done|]. split; [done|].
  refine (proj2 (proj2 (proj2 (proj2
    (getitem_keys_stable (λ a, Ok a) Toy.rgb_adapter
       {["pixel_values"; "labels"]} 0 1 si sj _ Hi Hj))))).
  intros image mask encoded Henc. unfold Toy.rgb_adapter, Toy.encode in Henc.
  simpl in Henc. inversion Henc. rewrite !dom_insert_L. set_solver.
Defined.

(** ** The batch loader *)

(** The batches of a pass: [n / B] full ones, then one more with the
    [n mod B] remaining indices when there are any; together they are the
    order of the pass.  [acc] is a partly filled batch. *)
Lemma batch_sampler_spec (B : nat) (l acc : list nat) :
  0 < B → length acc < B →
  ∃ full rest,
    batch_sampler B l acc = full ++ rest
    ∧ length full = (length acc + length l) / B
    ∧ Forall (λ b, length b = B) full
    ∧ (if (length acc + length l) mod B =? 0 then rest = []
       else ∃ b, rest = [b] ∧ length b = (length acc + length l) mod B)
    ∧ concat (full ++ rest) = acc ++ l.
Proof.
  intros HB. revert acc. induction l as [|i l IH]; intros acc Hacc; simpl.
  - rewrite Nat.add_0_r, Nat.div_small, Nat.mod_small by done.
    exists []. destruct acc as [|a acc].
    + exists []. by repeat split.
    + exists [a :: acc]. simpl. rewrite !app_nil_r.
      split; [done|]. split; [done|]. split; [done|]. split; [eauto | done].
  - rewrite length_app. simpl.
    destruct (Nat.eqb_spec (length acc + 1) B) as [Heq|Hne].
    + destruct (IH [] ltac:(simpl; lia)) as (full & rest & Hbs & Hlen & Hall & Hrest & Hcat).
      simpl in *.
      assert (length acc + S (length l) = length l + 1 * B) as -> by lia.
      rewrite Nat.div_add, Nat.Div0.mod_add by lia.
      exists ((acc ++ [i]) :: full), rest. rewrite Hbs. simpl.
      split; [done|]. split; [lia|]. split.
      { constructor; [|done]. rewrite length_app. simpl. lia. }
      split; [done|]. rewrite Hcat. by rewrite <- app_assoc.
    + destruct (IH (acc ++ [i])) as (full & rest & Hbs & Hlen & Hall & Hrest & Hcat).
      { rewrite length_app. simpl. lia. }
      rewrite length_app in *. simpl in *.
      assert (length acc + 1 + length l = length acc + S (length l)) as Heq
        by lia.
      rewrite Heq in *.
      exists full, rest. rewrite Hcat, <- app_assoc. done.
Qed.

Lemma loader_len_ceil (n B : nat) :
  0 < B → loader_len n B = n / B + (if n mod B =? 0 then 0 else 1).
Proof.
  intros HB. unfold loader_len.
  pose proof (Nat.div_mod_eq n B) as Hn.
  pose proof (Nat.mod_upper_bound n B ltac:(lia)) as Hr.
  destruct (Nat.eqb_spec (n mod B) 0) as [H0|H0].
  - rewrite Nat.add_0_r. symmetry.
    apply (Nat.div_unique _ _ _ (B - 1)); [lia|]. rewrite H0 in Hn. lia.
  - symmetry.
    apply (Nat.div_unique _ _ _ (n mod B - 1)); [lia|]. nia.
Qed.

(** [loader_len] is the ceiling of [n / B]. *)
Lemma loader_len_bounds (n B : nat) :
  0 < B → n ≤ loader_len n B * B < n + B.
Proof.
  intros HB. rewrite loader_len_ceil by done.
  pose proof (Nat.div_mod_eq n B) as Hn.
  pose proof (Nat.mod_upper_bound n B ltac:(lia)) as Hr.
  destruct (Nat.eqb_spec (n mod B) 0); nia.
Qed.

(** The batches of an order of [n] indices. *)
Lemma batch_sampler_batches (B n : nat) (order : list nat) :
  0 < B → 0 < n → length order = n →
  length (batch_sampler B order []) = loader_len n B
  ∧ (∀ i b, i < n / B → batch_sampler B order [] !! i = Some b →
       length b = B)
  ∧ (∃ b, last (batch_sampler B order []) = Some b
          ∧ length b = if n mod B =? 0 then B else n mod B)
  ∧ concat (batch_sampler B order []) = order.
Proof.
  intros HB Hn Hlo.
  destruct (batch_sampler_spec B order [] HB) as
    (full & rest & Hbs & Hlen & Hall & Hrest & Hcat); [simpl; lia|].
  simpl in Hlen, Hrest, Hcat. rewrite Hlo in Hlen, Hrest.
  rewrite Hbs.
  rewrite loader_len_ceil by done.
  pose proof (Nat.div_mod_eq n B) as Hdm.
  destruct (Nat.eqb_spec (n mod B) 0) as [H0|H0].
  - subst rest. rewrite app_nil_r in *.
    split; [lia|]. split.
    { intros i b _ Hb. by eapply (Forall_lookup_1 _ _ _ _ Hall). }
    split; [|done].
    destruct (last full) as [b|] eqn:Hlast.
    + exists b. split; [done|].
      apply last_Some in Hlast as [full' ->].
      apply Forall_app in Hall as [_ Hb]. by inversion Hb.
    + apply last_None in Hlast. rewrite Hlast in Hlen. simpl in Hlen.
      rewrite <- Hlen, H0 in Hdm. lia.
  - destruct Hrest as (b & -> & Hb).
    split; [rewrite length_app; simpl; lia|]. split.
    { intros i b' Hi Hb'. rewrite lookup_app_l in Hb' by lia.
      by eapply (Forall_lookup_1 _ _ _ _ Hall). }
    split; [|done].
    exists b. by rewrite last_snoc.
Qed.

(** C2.  For a dataset of length L > 0 and batch size B > 0, a full pass of
    the loader (shuffling or not) yields ceil(L/B) batches; the first L / B
    have exactly B indices; the last has L mod B indices, or B when B
    divides L; and the indices of all batches together are a permutation of
    0 .. L-1, so none is skipped and none occurs twice. *)
Theorem loader_pass_covers {X} (randperm : nat → X → list nat * X)
    (shuffle : bool) (L B : nat) (x : X) :
  randperm_contract randperm → 0 < L → 0 < B →
  let batches := (loader_pass randperm shuffle B L x).1 in
  length batches = loader_len L B
  ∧ L ≤ loader_len L B * B < L + B
  ∧ (∀ i b, i < L / B → batches !! i = Some b → length b = B)
  ∧ (∃ b, last batches = Some b
          ∧ length b = if L mod B =? 0 then B else L mod B)
  ∧ concat batches ≡ₚ seq 0 L
  ∧ NoDup (concat batches).
Proof.
  intros Hperm HL HB. unfold loader_pass.
  destruct (sampler_order randperm shuffle L x) as [order x'] eqn:Hord.
  simpl.
  assert (order ≡ₚ seq 0 L) as Horder.
  { unfold sampler_order in Hord. destruct shuffle.
    - specialize (Hperm L x). by rewrite Hord in Hperm.
    - by inversion Hord. }
  assert (length order = L) as Hlen.
  { by rewrite Horder, length_seq. }
  destruct (batch_sampler_batches B L order HB HL Hlen)
    as (H1 & H2 & H3 & H4).
  split; [done|]. split; [by apply loader_len_bounds|].
  split; [done|]. split; [done|]. rewrite H4.
  split; [done|]. rewrite Horder. apply NoDup_seq.
Qed.

Lemma permute_contract : randperm_contract Toy.permute.
Proof.
  intros n x. unfold Toy.permute. simpl.
  destruct (Nat.even x); [done | symmetry; apply Permutation_rev].
Qed.

Lemma permute_const_contract : randperm_contract Toy.permute_const.
Proof. by intros n x. Qed.

(** An instance: ten indices in batches of four, shuffled. *)
Lemma loader_pass_covers_witness :
  let batches := (loader_pass Toy.permute true 4 10 1).1 in
  length batches = 3
  ∧ (∃ b, last batches = Some b ∧ length b = 2)
  ∧ concat batches ≡ₚ seq 0 10.
Proof.
  pose proof (loader_pass_covers Toy.permute true 10 4 1
                permute_contract ltac:(lia) ltac:(lia))
    as (H1 & _ & _ & H3 & H4 & _).
  split; [exact H1|]. split; [exact H3 | exact H4].
Defined.

(** C8.  Without shuffling, every pass visits the indices in the original
    order, whatever the generator state, so two passes yield the same
    batches.  With shuffling, the order of a pass is the permutation drawn
    from the generator when the pass begins, and the generator moves on; two
    successive passes may yield different batches (first generator below),
    and need not (second generator). *)
Theorem loader_pass_orderings :
  (∀ X (randperm : nat → X → list nat * X) L B (x1 x2 : X),
     sampler_order randperm false L x1 = (seq 0 L, x1)
     ∧ (loader_pass randperm false B L x1).1
       = (loader_pass randperm false B L x2).1
     ∧ (loader_pass randperm false B L x1).1 = batch_sampler B (seq 0 L) [])
  ∧ (∀ X (randperm : nat → X → list nat * X) L B (x : X),
       randperm_contract randperm →
       sampler_order randperm true L x = randperm L x
       ∧ (sampler_order randperm true L x).1 ≡ₚ seq 0 L
       ∧ loader_pass randperm true B L x
         = (batch_sampler B (randperm L x).1 [], (randperm L x).2))
  ∧ (∃ X (randperm : nat → X → list nat * X) L B (x : X),
       randperm_contract randperm
       ∧ let first := loader_pass randperm true B L x in
         let second := loader_pass randperm true B L first.2 in
         first.1 ≠ second.1)
  ∧ (∃ X (randperm : nat → X → list nat * X) L B (x : X),
       randperm_contract randperm
       ∧ let first := loader_pass randperm true B L x in
         let second := loader_pass randperm true B L first.2 in
         first.1 = second.1).
Proof.
  split; [|split; [|split]].
  - intros X randperm L B x1 x2. done.
  - intros X randperm L B x Hperm. unfold loader_pass, sampler_order.
    split; [done|]. split; [apply Hperm|]. by destruct (randperm L x).
  - exists nat, Toy.permute, 3, 2, 0. split; [apply permute_contract|].
    vm_compute. discriminate.
  - exists nat, Toy.permute_const, 3, 2, 0.
    split; [apply permute_const_contract | done].
Qed.

(** An instance, with the alternating generator. *)
Lemma loader_pass_orderings_witness :
  (sampler_order Toy.permute true 5 1).1 ≡ₚ seq 0 5
  ∧ (loader_pass Toy.permute false 2 5 0).1
    = (loader_pass Toy.permute false 2 5 7).1.
Proof.
  destruct loader_pass_orderings as (Hoff & Hon & _).
  split.
  - exact (proj1 (proj2 (Hon nat Toy.permute 5 2 1 permute_contract))).
  - exact (proj1 (proj2 (Hoff nat Toy.permute 5 2 0 7))).
Defined.

(** ** Reasoning about statements *)

Section Wp.
Context `{F : Framework}.


Lemma wp_ret {A} (a : A) Q E st : Q a st → wp (ret a) Q E st.
Proof. done. Qed.

Lemma wp_bind {A B} (c : M A) (k : A → M B) Q E st :
  wp c (λ a st', wp (k a) Q E st') E st → wp (bind c k) Q E st.
Proof. unfold wp, bind. by destruct (c st) as [[a|e] st']. Qed.

Lemma wp_lift {A} (r : result A) (Q : A → St → Prop) E st :
  match r with Ok a => Q a st | Raise _ => E st end → wp (lift r) Q E st.
Proof. unfold wp, lift. by destruct r. Qed.

Lemma wp_get Q E (st : St) : Q st.1 st → wp get_machine Q E st.
Proof. done. Qed.

Lemma wp_update f Q E (st : St) : Q tt (f st.1, st.2) → wp (update f) Q E st.
Proof. done. Qed.

Lemma wp_call c Q E (st : St) :
  Q tt (st.1, st.2 ++ [(c, st.1)]) → wp (call c) Q E st.
Proof. done. Qed.

Lemma wp_mono {A} (c : M A) (Q Q' : A → St → Prop) (E E' : St → Prop) st :
  (∀ a st', Q a st' → Q' a st') → (∀ st', E st' → E' st') →
  wp c Q E st → wp c Q' E' st.
Proof.
  unfold wp. intros HQ HE. destruct (c st) as [[a|e] st']; auto.
Qed.

(** A loop over a list, with an invariant indexed by the number of
    iterations done. *)
Lemma wp_for_each {A} (xs : list A) (body : A → M unit)
    (I : nat → St → Prop) E st :
  I 0 st →
  (∀ i x st', xs !! i = Some x → I i st' →
     wp (body x) (λ _, I (S i)) E st') →
  wp (for_each xs body) (λ _, I (length xs)) E st.
Proof.
  revert I st. induction xs as [|x xs IH]; intros I st H0 Hbody; simpl.
  - by apply wp_ret.
  - apply wp_bind. eapply wp_mono; [| | apply (Hbody 0 x st eq_refl H0)];
      [|done].
    intros [] st' H1. simpl.
    apply (IH (λ i, I (S i))); [done|].
    intros i y st'' Hy. by apply (Hbody (S i)).
Qed.

(** The same, with an invariant that does not count. *)
Lemma wp_for_each_inv {A} (xs : list A) (body : A → M unit)
    (I : St → Prop) E st :
  I st →
  (∀ x st', x ∈ xs → I st' → wp (body x) (λ _, I) E st') →
  wp (for_each xs body) (λ _, I) E st.
Proof.
  intros H0 Hbody.
  apply (wp_for_each xs body (λ _, I)); [done|].
  intros i x st' Hx. apply Hbody. by eapply list_elem_of_lookup_2.
Qed.

(** What a statement's outcome is, from its [wp]. *)
Lemma wp_outcome {A} (c : M A) Q E st :
  wp c Q E st →
  match (c st).1 with Ok a => Q a (c st).2 | Raise _ => E (c st).2 end.
Proof. unfold wp. by destruct (c st) as [[a|e] st']. Qed.

(** The loop over a loader: the batches of the pass are drawn, then fetched
    and processed one at a time. *)
Lemma wp_for_batches ld body (I : nat → St → Prop) E st :
  (∀ batches x',
     loader_pass randperm (shuffle ld) (batch_size ld)
       (dataset_len (dataset ld)) (ambient st.1) = (batches, x') →
     I 0 (set_ambient x' st.1, st.2)
     ∧ ∀ i indices st', batches !! i = Some indices →
         I i st' →
         match fetch ld indices with
         | Ok batch => wp (body batch) (λ _, I (S i)) E st'
         | Raise _ => E st'
         end) →
  wp (for_batches ld body)
     (λ _ st', ∃ batches x',
        loader_pass randperm (shuffle ld) (batch_size ld)
          (dataset_len (dataset ld)) (ambient st.1) = (batches, x')
        ∧ I (length batches) st') E st.
Proof.
  intros H. unfold for_batches. apply wp_bind.
  unfold wp at 1, draw_batches.
  destruct (loader_pass _ _ _ _ _) as [batches x'] eqn:Hpass.
  destruct (H batches x' eq_refl) as [H0 Hbody].
  eapply wp_mono; [| | apply (wp_for_each _ _ I E); [exact H0|]]; [|done|].
  - intros u st' HI. by exists batches, x'.
  - intros i indices st' Hi HI. apply wp_bind, wp_lift.
    specialize (Hbody i indices st' Hi HI).
    by destruct (fetch ld indices).
Qed.

End Wp.

Ltac wp_step :=
  lazymatch goal with
  | |- wp (bind _ _) _ _ _ => apply wp_bind
  | |- wp (call _) _ _ _ => apply wp_call
  | |- wp (update _) _ _ _ => apply wp_update
  | |- wp get_machine _ _ _ => apply wp_get
  | |- wp (ret _) _ _ _ => apply wp_ret
  end.
Ltac wp_steps := repeat (wp_step; cbv beta; cbn [fst snd]).

(** ** The validation pass leaves the weights alone *)

Section ValidationFrame.
Context `{F : Framework}.

Lemma frozen_since_start m0 log0 : frozen_since m0 log0 (m0, log0).
Proof.
  repeat split. exists []. by rewrite app_nil_r.
Qed.

Lemma frozen_since_call m0 log0 c m log :
  inference_call c = true →
  frozen_since m0 log0 (m, log) → frozen_since m0 log0 (m, log ++ [(c, m)]).
Proof.
  intros Hc (Hw & Hg & Ho & Hl & Hs & Hout & Ha & new & Hlog & Hall).
  simpl in *.
  repeat split; try done.
  exists (new ++ [(c, m)]). rewrite Hlog, app_assoc. split; [done|].
  apply Forall_app. split; [done|]. by repeat constructor.
Qed.

Lemma frozen_since_update m0 log0 m m' log :
  weights m' = weights m → grads m' = grads m →
  opt_state m' = opt_state m → lr m' = lr m →
  scheduler m' = scheduler m → stdout m' = stdout m →
  artifacts m' = artifacts m →
  frozen_since m0 log0 (m, log) → frozen_since m0 log0 (m', log).
Proof.
  intros Hw' Hg' Ho' Hl' Hs' Hout' Ha'
    (Hw & Hg & Ho & Hl & Hs & Hout & Ha & Hnew). simpl in *.
  repeat split; simpl; congruence || done.
Qed.

Lemma val_step_frozen m0 log0 batch st :
  frozen_since m0 log0 st →
  wp (val_step batch) (λ _, frozen_since m0 log0) (frozen_since m0 log0) st.
Proof.
  destruct st as [m log]. intros Hinv. unfold val_step, model_call.
  wp_steps.
  destruct (model_forward _ _ _ _ _) as [r x'].
  wp_steps.
  assert (frozen_since m0 log0 (set_ambient x' m, log ++ [(CForward false, m)]))
    as Hinv'.
  { apply (frozen_since_update _ _ m); try done.
    by apply frozen_since_call. }
  apply wp_lift. destruct r as [outputs|e]; [|done].
  wp_steps. apply wp_lift. destruct (logits_argmax outputs) as [preds|e]; [|done].
  wp_steps. apply wp_lift.
  destruct (getkey _ _) as [labels|e]; [|done].
  unfold metric_add_batch. wp_steps.
  eapply frozen_since_update; [..| apply frozen_since_call; [|exact Hinv']];
    done.
Qed.

Lemma validation_pass_frozen ld st :
  wp (validation_pass ld) (λ _, frozen_since st.1 st.2)
     (frozen_since st.1 st.2) st.
Proof.
  destruct st as [m log]. simpl.
  pose proof (frozen_since_start m log) as Hinv.
  set (Inv := frozen_since m log) in *.
  unfold validation_pass, model_eval, metric_reset.
  wp_steps.
  assert (Inv (set_accumulator [] (set_training false m),
               (log ++ [(CModelEval, m)])
               ++ [(CMetricReset, set_training false m)])) as Hinv'.
  { apply (frozen_since_update _ _ (set_training false m)); try done.
    apply frozen_since_call; [done|].
    apply (frozen_since_update _ _ m); try done.
    by apply frozen_since_call. }
  eapply wp_mono; [| | apply (wp_for_batches _ _ (λ _, Inv) Inv)].
  - intros u st' (order & x' & _ & Hst'). simpl.
    unfold metric_compute. destruct st' as [m' log']. wp_steps.
    destruct (mean_iou_compute _ _ _ _) as [r acc'].
    wp_steps. apply wp_lift.
    assert (Inv (set_accumulator acc' m',
                 log' ++ [(CCompute config_num_labels 255 false, m')]))
      as Hinv''.
    { apply (frozen_since_update _ _ m'); try done.
      by apply frozen_since_call. }
    destruct r as [results|e]; [|done].
    apply wp_lift. by destruct (getkey _ _).
  - done.
  - intros order x' _. split.
    + by apply (frozen_since_update _ _ _ _ _ eq_refl eq_refl eq_refl eq_refl
                  eq_refl eq_refl eq_refl).
    + intros i indices st' _ Hst'.
      destruct (fetch ld indices) as [batch|e]; [|done].
      by apply val_step_frozen.
Qed.

(** C1.  A validation pass (the switch to inference mode, the reset of the
    metric, every validation batch, the metric's computation) ends, normally
    or by an exception, with the weights it started with; so do the
    gradient accumulators, the optimizer state and the rate.  Every call it
    makes is an inference call: forward passes run with gradient tracking
    disabled, and there is no backward pass and no optimizer or scheduler
    step; each call finds the weights unchanged. *)
Theorem validation_pass_keeps_weights (ld : Loader) (st : St) :
  let st' := (validation_pass ld st).2 in
  weights st'.1 = weights st.1
  ∧ grads st'.1 = grads st.1
  ∧ opt_state st'.1 = opt_state st.1
  ∧ ∃ new, st'.2 = st.2 ++ new
      ∧ Forall (λ e, inference_call e.1 = true
                     ∧ weights e.2 = weights st.1) new.
Proof.
  pose proof (wp_outcome _ _ _ _ (validation_pass_frozen ld st)) as H.
  simpl.
  assert (frozen_since st.1 st.2 (validation_pass ld st).2)
    as (Hw & Hg & Ho & _ & _ & _ & _ & Hnew).
  { by destruct (validation_pass ld st).1. }
  done.
Qed.

End ValidationFrame.

(** ** Gradients are clear when a backward pass starts *)

Section GradientHygiene.
Context `{F : Framework}.

Lemma hygienic_nil : hygienic [].
Proof.
  split; [constructor|]. split; [|done]. intros i m H. done.
Qed.

Lemma hygienic_snoc new c m :
  c ≠ CSchedulerStep → (c = CBackward → grads m = grad_zero) →
  hygienic new → hygienic (new ++ [(c, m)]).
Proof.
  intros Hc Hb (Hall & Hfol & Hlast). split; [|split].
  - apply Forall_app. split; [done|]. by repeat constructor.
  - intros i m1 Hi.
    destruct (decide (i < length new)) as [Hlt|Hge].
    + rewrite lookup_app_l in Hi by done.
      destruct (Hfol i m1 Hi) as [m' Hm']. exists m'.
      rewrite lookup_app_l; [done|]. by eapply lookup_lt_Some.
    + rewrite lookup_app_r in Hi by lia.
      destruct (i - length new) as [|k]; simpl in Hi; [|done].
      congruence.
  - intros m1. rewrite last_snoc. congruence.
Qed.

Lemma hygienic_step_then_clear new m1 m2 :
  hygienic new →
  hygienic ((new ++ [(CSchedulerStep, m1)]) ++ [(CZeroGrad, m2)]).
Proof.
  intros (Hall & Hfol & Hlast). split; [|split].
  - rewrite !Forall_app. repeat split; try done;
      by repeat constructor.
  - intros i m Hi. rewrite <- app_assoc in *. simpl in *.
    destruct (decide (i < length new)) as [Hlt|Hge].
    + rewrite lookup_app_l in Hi by done.
      destruct (Hfol i m Hi) as [m' Hm']. exists m'.
      rewrite lookup_app_l; [done|]. by eapply lookup_lt_Some.
    + rewrite lookup_app_r in Hi by lia.
      destruct (i - length new) as [|[|k]] eqn:Hk; simpl in Hi; try done.
      exists m2. rewrite lookup_app_r by lia.
      by replace (S i - length new) with 1 by lia.
  - intros m. by rewrite last_snoc.
Qed.

Lemma hygienic_app_inference new more :
  Forall (λ e : Call * Machine, inference_call e.1 = true) more →
  hygienic new → hygienic (new ++ more).
Proof.
  induction more as [|[c m] more IH] using rev_ind; intros Hmore Hnew.
  - by rewrite app_nil_r.
  - apply Forall_app in Hmore as [Hmore Hc].
    inversion Hc as [|? ? Hc' _]; subst. simpl in Hc'.
    rewrite app_assoc. apply hygienic_snoc; [| |by apply IH].
    + intros ->. done.
    + intros ->. done.
Qed.

Lemma hygienic_since_snoc log0 m m' log c :
  c ≠ CSchedulerStep → (c = CBackward → grads m = grad_zero) →
  hygienic_since log0 (m, log) → hygienic_since log0 (m', log ++ [(c, m)]).
Proof.
  intros Hc Hb (new & Hlog & Hnew). simpl in *.
  exists (new ++ [(c, m)]). split; [by rewrite Hlog, app_assoc|].
  by apply hygienic_snoc.
Qed.

Lemma hygienic_since_machine log0 m m' log :
  hygienic_since log0 (m, log) → hygienic_since log0 (m', log).
Proof. done. Qed.

(** A training step started with clear accumulators ends with clear
    accumulators; the journal stays hygienic even if it raises. *)
Lemma train_step_hygienic log0 batch st :
  grads st.1 = grad_zero → hygienic_since log0 st →
  wp (train_step batch)
     (λ _ st', grads st'.1 = grad_zero ∧ hygienic_since log0 st')
     (hygienic_since log0) st.
Proof.
  destruct st as [m log]. simpl. intros Hz Hh.
  unfold train_step, model_call. wp_steps.
  destruct (model_forward _ _ _ _ _) as [r x']. wp_steps.
  assert (hygienic_since log0 (set_ambient x' m, log ++ [(CForward true, m)]))
    as Hh1 by (by apply hygienic_since_snoc).
  apply wp_lift. destruct r as [outputs|e]; [|done].
  unfold loss_backward. wp_steps.
  assert (hygienic_since log0
            (set_ambient x' m,
             (log ++ [(CForward true, m)]) ++ [(CBackward, set_ambient x' m)]))
    as Hh2 by (by apply hygienic_since_snoc).
  apply wp_lift. destruct (loss_gradient outputs) as [grad|e]; [|done].
  unfold optimizer_step, lr_scheduler_step, optimizer_zero_grad. wp_steps.
  split; [done|].
  match goal with
  | |- hygienic_since _ (_, (?l ++ [(CSchedulerStep, ?m1)]) ++ [(CZeroGrad, ?m2)]) =>
      assert (hygienic_since log0 (m, l)) as (new & Hlog & Hnew)
  end.
  { eapply hygienic_since_snoc; [done|done|].
    eapply hygienic_since_machine, Hh2. }
  simpl in Hlog.
  eexists. split; [|apply (hygienic_step_then_clear new), Hnew].
  simpl. rewrite Hlog, <- !app_assoc. done.
Qed.

Lemma training_pass_hygienic log0 ld st :
  grads st.1 = grad_zero → hygienic_since log0 st →
  wp (training_pass ld)
     (λ _ st', grads st'.1 = grad_zero ∧ hygienic_since log0 st')
     (hygienic_since log0) st.
Proof.
  destruct st as [m log]. simpl. intros Hz Hh.
  unfold training_pass, model_train. wp_steps.
  eapply wp_mono;
    [| | apply (wp_for_batches _ _
                 (λ _ st', grads st'.1 = grad_zero ∧ hygienic_since log0 st')
                 (hygienic_since log0))].
  - intros u st' (order & x' & _ & Hst'). done.
  - done.
  - intros order x' _. split.
    + split; [done|]. by apply hygienic_since_snoc.
    + intros i indices st' _ [Hz' Hh'].
      destruct (fetch ld indices) as [batch|e]; [|done].
      by apply train_step_hygienic.
Qed.

Lemma validation_pass_hygienic log0 ld st :
  grads st.1 = grad_zero → hygienic_since log0 st →
  wp (validation_pass ld)
     (λ _ st', grads st'.1 = grad_zero ∧ hygienic_since log0 st')
     (hygienic_since log0) st.
Proof.
  intros Hz (new & Hlog & Hnew).
  assert (∀ st', frozen_since st.1 st.2 st' →
                 grads st'.1 = grad_zero ∧ hygienic_since log0 st') as Hfrozen.
  { intros st' (_ & Hg & _ & _ & _ & _ & _ & more & Hlog' & Hmore).
    split; [congruence|].
    exists (new ++ more). split; [by rewrite Hlog', Hlog, app_assoc|].
    apply hygienic_app_inference; [|done].
    eapply Forall_impl; [exact Hmore|]. by intros e [He _]. }
  eapply wp_mono; [| | apply validation_pass_frozen].
  - intros v st' Hst'. by apply Hfrozen.
  - intros st' Hst'. by apply Hfrozen.
Qed.

Lemma run_epoch_hygienic log0 g epoch st :
  grads st.1 = grad_zero → hygienic_since log0 st →
  wp (run_epoch g epoch)
     (λ _ st', grads st'.1 = grad_zero ∧ hygienic_since log0 st')
     (hygienic_since log0) st.
Proof.
  intros Hz Hh. unfold run_epoch. apply wp_bind.
  eapply wp_mono; [| | by apply training_pass_hygienic]; [|done].
  intros [] st1 [Hz1 Hh1]. cbv beta. apply wp_bind.
  eapply wp_mono; [| | by apply validation_pass_hygienic]; [|done].
  intros miou [m2 log2] [Hz2 Hh2]. cbv beta. unfold print. wp_steps.
  split; [done|]. by apply hygienic_since_snoc.
Qed.

Lemma epoch_loop_hygienic g st :
  grads st.1 = grad_zero →
  wp (epoch_loop g)
     (λ _ st', grads st'.1 = grad_zero ∧ hygienic_since st.2 st')
     (hygienic_since st.2) st.
Proof.
  intros Hz.
  assert (hygienic_since st.2 st) as Hh.
  { exists []. split; [by rewrite app_nil_r | apply hygienic_nil]. }
  unfold epoch_loop.
  apply (wp_for_each_inv _ _
           (λ st', grads st'.1 = grad_zero ∧ hygienic_since st.2 st'));
    [done|].
  intros epoch st' _ [Hz' Hh']. by apply run_epoch_hygienic.
Qed.

(** C10.  Run the epoch loop from a state whose gradient accumulators are
    clear.  Every backward pass it makes finds the accumulators clear; every
    scheduler step is directly followed by the clearing of the gradients;
    and when the loop completes the accumulators are clear again.  This
    holds for the calls made up to an exception as well. *)
Theorem backward_starts_from_zero_grads (g : Globals) (st : St) :
  grads st.1 = grad_zero →
  let out := epoch_loop g st in
  (∃ new, out.2.2 = st.2 ++ new
     ∧ Forall backward_sees_zero new
     ∧ zero_grad_follows new)
  ∧ (out.1 = Ok tt → grads out.2.1 = grad_zero).
Proof.
  intros Hz.
  pose proof (wp_outcome _ _ _ _ (epoch_loop_hygienic g st Hz)) as Hwp.
  simpl.
  destruct (epoch_loop g st) as [[[]|e] st']; simpl in *.
  - destruct Hwp as (Hz' & new & Hlog & Hall & Hfol & _). eauto 10.
  - destruct Hwp as (new & Hlog & Hall & Hfol & _).
    split; [eauto | discriminate].
Qed.

End GradientHygiene.

(** ** The metric accumulator, epoch by epoch *)

Section MetricPerEpoch.
Context `{F : Framework}.

Lemma added_pairs_app l1 l2 :
  added_pairs (l1 ++ l2) = added_pairs l1 ++ added_pairs l2.
Proof. apply omap_app. Qed.

Lemma added_pairs_training pre :
  Forall (λ e : Call * Machine, training_call e.1 = true) pre →
  added_pairs pre = [].
Proof.
  induction 1 as [|[c m] pre Hc _ IH]; [done|].
  change ((c, m) :: pre) with ([(c, m)] ++ pre).
  rewrite added_pairs_app, IH. simpl in Hc. by destruct c.
Qed.

Lemma in_training_snoc log0 m m' log c :
  training_call c = true →
  in_training log0 (m, log) → in_training log0 (m', log ++ [(c, m)]).
Proof.
  intros Hc (pre & Hlog & Hpre). simpl in *.
  exists (pre ++ [(c, m)]). split; [by rewrite Hlog, app_assoc|].
  apply Forall_app. split; [done|]. by repeat constructor.
Qed.

Lemma train_step_in_training log0 batch st :
  in_training log0 st →
  wp (train_step batch) (λ _, in_training log0) (in_training log0) st.
Proof.
  destruct st as [m log]. intros Hinv.
  unfold train_step, model_call. wp_steps.
  destruct (model_forward _ _ _ _ _) as [r x']. wp_steps.
  pose proof (in_training_snoc log0 m (set_ambient x' m) log (CForward true)
                eq_refl Hinv) as H1.
  apply wp_lift. destruct r as [outputs|e]; [|done].
  unfold loss_backward. wp_steps.
  pose proof (in_training_snoc log0 _ (set_ambient x' m) _ CBackward
                eq_refl H1) as H2.
  apply wp_lift. destruct (loss_gradient outputs) as [grad|e]; [|done].
  unfold optimizer_step, lr_scheduler_step, optimizer_zero_grad. wp_steps.
  do 3 (apply in_training_snoc; [done|]). exact H2.
Qed.

Lemma training_pass_in_training ld st :
  wp (training_pass ld) (λ _, in_training st.2) (in_training st.2) st.
Proof.
  destruct st as [m log]. simpl.
  assert (in_training log (m, log)) as Hinv.
  { exists []. by rewrite app_nil_r. }
  unfold training_pass, model_train. wp_steps.
  eapply wp_mono;
    [| | apply (wp_for_batches _ _ (λ _, in_training log) (in_training log))].
  - by intros u st' (order & x' & _ & Hst').
  - done.
  - intros order x' _. split.
    + by apply in_training_snoc.
    + intros i indices st' _ Hst'.
      destruct (fetch ld indices) as [batch|e]; [|done].
      by apply train_step_in_training.
Qed.

Lemma in_validation_snoc log0 m m' log c :
  val_step_call c = true →
  accumulator m' = accumulator m ++ added_pairs [(c, m)] →
  in_validation log0 (m, log) → in_validation log0 (m', log ++ [(c, m)]).
Proof.
  intros Hc Hacc (pre & mE & mR & vals & Hlog & Hpre & Hvals & Hm).
  simpl in *.
  exists pre, mE, mR, (vals ++ [(c, m)]).
  split; [by rewrite Hlog, <- !app_assoc|]. split; [done|]. split.
  - apply Forall_app. split; [done|]. by repeat constructor.
  - simpl. by rewrite added_pairs_app, Hacc, Hm.
Qed.

Lemma val_step_in_validation log0 batch st :
  in_validation log0 st →
  wp (val_step batch) (λ _, in_validation log0) (in_validation log0) st.
Proof.
  destruct st as [m log]. intros Hinv.
  unfold val_step, model_call. wp_steps.
  destruct (model_forward _ _ _ _ _) as [r x']. wp_steps.
  assert (in_validation log0 (set_ambient x' m, log ++ [(CForward false, m)]))
    as H1.
  { apply in_validation_snoc; [done| |done]. simpl. by rewrite app_nil_r. }
  apply wp_lift. destruct r as [outputs|e]; [|done].
  wp_steps. apply wp_lift.
  destruct (logits_argmax outputs) as [preds|e]; [|done].
  wp_steps. apply wp_lift. destruct (getkey _ _) as [labels|e]; [|done].
  unfold metric_add_batch. wp_steps.
  by apply in_validation_snoc.
Qed.

(** What an epoch's journal looks like, whether the epoch completes
    ([Ok]) or raises. *)
Lemma run_epoch_journal g epoch st :
  wp (run_epoch g epoch)
     (λ _ st', ∃ line mP, after_compute st.2 [(CPrint line, mP)] st')
     (λ st', in_training st.2 st' ∨ in_validation st.2 st'
             ∨ after_compute st.2 [] st') st.
Proof.
  unfold run_epoch. apply wp_bind.
  eapply wp_mono; [| | apply training_pass_in_training]; [|by left].
  intros [] [m1 log1] (pre & Hlog1 & Hpre). cbv beta. simpl in Hlog1.
  apply wp_bind. unfold validation_pass, model_eval, metric_reset.
  wp_steps.
  set (E := λ st', in_training st.2 st' ∨ in_validation st.2 st'
                   ∨ after_compute st.2 [] st').
  eapply wp_mono;
    [| | apply (wp_for_batches _ _ (λ _, in_validation st.2)
                  (in_validation st.2))].
  - intros u [m2 log2] (order & x' & _ & Hval). cbv beta.
    unfold metric_compute. wp_steps.
    destruct (mean_iou_compute _ _ _ _) as [r acc']. wp_steps.
    assert (∀ m' tail,
              after_compute st.2 tail
                (m', (log2 ++ [(CCompute config_num_labels 255 false, m2)])
                     ++ tail)) as Hafter.
    { intros m' tail.
      destruct Hval as (pre2 & mE & mR & vals & Hlog2 & Hpre2 & Hvals & Hacc).
      simpl in *. exists pre2, mE, mR, vals, m2.
      split; [|done]. rewrite Hlog2.
      repeat (rewrite <- app_assoc; simpl). done. }
    apply wp_lift. destruct r as [results|e].
    + apply wp_lift. destruct (getkey _ _) as [miou|e].
      * unfold print. wp_steps. eexists _, _. apply Hafter.
      * right. right. specialize (Hafter (set_accumulator acc' m2) []).
        by rewrite app_nil_r in Hafter.
    + right. right. specialize (Hafter (set_accumulator acc' m2) []).
      by rewrite app_nil_r in Hafter.
  - intros st' Hst'. right. by left.
  - intros order x' _. split.
    + exists pre, m1, (set_training false m1), []. simpl.
      split; [|done]. rewrite Hlog1, <- !app_assoc. done.
    + intros i indices st' _ Hst'.
      destruct (fetch (val_loader g) indices) as [batch|e]; [|done].
      by apply val_step_in_validation.
Qed.

(** In a list with one element satisfying [P], a decomposition around such
    an element is the decomposition around that one. *)
Lemma split_at_unique {A} (P : A → bool) (l1 l2 l1' l2' : list A) x x' :
  l1 ++ x :: l2 = l1' ++ x' :: l2' →
  Forall (λ a, P a = false) l1 → Forall (λ a, P a = false) l2 →
  P x = true → P x' = true →
  l1' = l1 ∧ x' = x ∧ l2' = l2.
Proof.
  intros Heq H1 H2 Hx Hx'.
  assert (length l1' = length l1) as Hlen.
  { destruct (Nat.lt_total (length l1') (length l1)) as [Hlt|[Heq'|Hgt]];
      [|done|].
    - assert ((l1 ++ x :: l2) !! length l1' = Some x') as Hl.
      { rewrite Heq. by apply list_lookup_middle. }
      rewrite lookup_app_l in Hl by done.
      pose proof (Forall_lookup_1 _ _ _ _ H1 Hl) as Hn. simpl in Hn.
      congruence.
    - assert ((l1 ++ x :: l2) !! length l1' = Some x') as Hl.
      { rewrite Heq. by apply list_lookup_middle. }
      rewrite lookup_app_r in Hl by lia.
      destruct (length l1' - length l1) as [|k] eqn:Hk; [lia|].
      simpl in Hl.
      pose proof (Forall_lookup_1 _ _ _ _ H2 Hl) as Hn. simpl in Hn.
      congruence. }
  apply app_inj_1 in Heq as [-> Heq]; [|done].
  by inversion Heq.
Qed.

(** C9.  In every epoch, whatever the accumulator held before: each
    computation of the metric is made with the class count of the model
    configuration, ignore-index 255 and reduce-labels false; the journal of
    the epoch up to it is training calls, the switch to inference mode, the
    reset of the metric, then validation forward passes and additions only,
    so the reset precedes all validation batches; and the accumulator handed
    to the computation holds exactly the pairs added in this epoch.  An
    epoch that completes ends with one such computation followed by the
    report. *)
Theorem metric_reset_and_computed_per_epoch (g : Globals) (epoch : nat)
    (st : St) :
  let out := run_epoch g epoch st in
  ∃ new, out.2.2 = st.2 ++ new
    ∧ (∀ before num_labels ignore_index reduce_labels mC after,
         new = before ++ (CCompute num_labels ignore_index reduce_labels, mC)
                         :: after →
         num_labels = config_num_labels
         ∧ ignore_index = 255%Z
         ∧ reduce_labels = false
         ∧ accumulator mC = added_pairs before
         ∧ ∃ pre mE mR vals,
             before = pre ++ (CModelEval, mE) :: (CMetricReset, mR) :: vals
             ∧ Forall (λ e, training_call e.1 = true) pre
             ∧ Forall (λ e, val_step_call e.1 = true) vals)
    ∧ (out.1 = Ok tt →
       ∃ before mC line mP,
         new = before ++ [(CCompute config_num_labels 255 false, mC);
                          (CPrint line, mP)]).
Proof.
  pose proof (wp_outcome _ _ _ _ (run_epoch_journal g epoch st)) as H.
  simpl.
  assert (∀ tail st', after_compute st.2 tail st' →
            (tail = [] ∨ ∃ line mP, tail = [(CPrint line, mP)]) →
            ∃ new, st'.2 = st.2 ++ new
              ∧ (∀ before nl ig rl mC after,
                   new = before ++ (CCompute nl ig rl, mC) :: after →
                   nl = config_num_labels ∧ ig = 255%Z ∧ rl = false
                   ∧ accumulator mC = added_pairs before
                   ∧ ∃ pre mE mR vals,
                       before = pre ++ (CModelEval, mE)
                                  :: (CMetricReset, mR) :: vals
                       ∧ Forall (λ e, training_call e.1 = true) pre
                       ∧ Forall (λ e, val_step_call e.1 = true) vals)
              ∧ ∃ before mC, new = before
                  ++ (CCompute config_num_labels 255 false, mC) :: tail)
    as Hcomputed.
  { intros tail st' (pre & mE & mR & vals & mC & Hlog & Hpre & Hvals & Hacc)
      Htail.
    eexists. split; [exact Hlog|]. split.
    - intros before nl ig rl mC' after Heq.
      replace (pre ++ (CModelEval, mE) :: (CMetricReset, mR) :: vals
                 ++ (CCompute config_num_labels 255 false, mC) :: tail)
        with ((pre ++ (CModelEval, mE) :: (CMetricReset, mR) :: vals)
                ++ (CCompute config_num_labels 255 false, mC) :: tail)
        in Heq by (by rewrite <- app_assoc).
      apply (split_at_unique (λ e, is_compute e.1)) in Heq
        as (-> & Hx & ->); try done.
      + inversion Hx; subst. repeat split; try done.
        * rewrite added_pairs_app, (added_pairs_training pre Hpre). simpl.
          unfold added_pairs at 1. simpl. exact Hacc.
        * by exists pre, mE, mR, vals.
      + apply Forall_app. split.
        * eapply Forall_impl; [exact Hpre|]. intros [c m] Hc. simpl in *.
          by destruct c.
        * repeat constructor.
          eapply Forall_impl; [exact Hvals|]. intros [c m] Hc. simpl in *.
          by destruct c as [| |[]| | | | | | | |].
      + destruct Htail as [->|(line & mP & ->)]; by repeat constructor.
    - exists (pre ++ (CModelEval, mE) :: (CMetricReset, mR) :: vals), mC.
      by rewrite <- app_assoc. }
  assert (∀ new, Forall (λ e : Call * Machine, is_compute e.1 = false) new →
            ∀ before nl ig rl mC after,
              new = before ++ (CCompute nl ig rl, mC) :: after → False)
    as Hnone.
  { intros new Hnew before nl ig rl mC after ->.
    apply Forall_app in Hnew as [_ Hnew]. by inversion Hnew. }
  destruct (run_epoch g epoch st) as [[[]|e] st']; simpl in *.
  - destruct H as (line & mP & H).
    destruct (Hcomputed _ _ H) as (new & Hlog & Hall & before & mC & Hnew);
      [by eauto|].
    exists new. split; [done|]. split; [done|]. intros _.
    by exists before, mC, line, mP.
  - destruct H as [(pre & Hlog & Hpre)|[H|H]].
    + exists pre. split; [done|]. split; [|done].
      intros before nl ig rl mC after Heq. exfalso.
      eapply (Hnone pre); [|exact Heq].
      eapply Forall_impl; [exact Hpre|]. intros [c m] Hc. simpl in *.
      by destruct c.
    + destruct H as (pre & mE & mR & vals & Hlog & Hpre & Hvals & _).
      eexists. split; [exact Hlog|]. split; [|done].
      intros before nl ig rl mC after Heq. exfalso.
      eapply Hnone; [|exact Heq].
      apply Forall_app. split.
      * eapply Forall_impl; [exact Hpre|]. intros [c m] Hc. simpl in *.
        by destruct c.
      * repeat constructor.
        eapply Forall_impl; [exact Hvals|]. intros [c m] Hc. simpl in *.
        by destruct c as [| |[]| | | | | | | |].
    + destruct (Hcomputed _ _ H) as (new & Hlog & Hall & _); [by left|].
      exists new. split; [done|]. split; [done|]. done.
Qed.

End MetricPerEpoch.

(** ** Complete runs: steps, rates and the report *)

Section CompleteRun.
Context `{F : Framework}.

Lemma wp_conj {A} (c : M A) Q1 Q2 E1 E2 st :
  wp c Q1 E1 st → wp c Q2 E2 st →
  wp c (λ a s, Q1 a s ∧ Q2 a s) (λ s, E1 s ∧ E2 s) st.
Proof. unfold wp. by destruct (c st) as [[a|e] st']. Qed.

Lemma optimizer_rates_app l1 l2 :
  optimizer_rates (l1 ++ l2) = optimizer_rates l1 ++ optimizer_rates l2.
Proof. apply omap_app. Qed.

Lemma optimizer_rates_inference more :
  Forall (λ e : Call * Machine, inference_call e.1 = true) more →
  optimizer_rates more = [].
Proof.
  induction 1 as [|[c m] more Hc _ IH]; [done|].
  change ((c, m) :: more) with ([(c, m)] ++ more).
  rewrite optimizer_rates_app, IH. simpl in Hc. by destruct c.
Qed.

(** The number of batches of a pass is [len(loader)]. *)
Lemma batch_count {X} (rp : nat → X → list nat * X) sh n B x batches x' :
  randperm_contract rp → 0 < B →
  loader_pass rp sh B n x = (batches, x') →
  length batches = loader_len n B.
Proof.
  intros Hperm HB Hpass. unfold loader_pass in Hpass.
  destruct (sampler_order rp sh n x) as [order x''] eqn:Hord.
  inversion Hpass; subst. clear Hpass.
  assert (length order = n) as Hlen.
  { unfold sampler_order in Hord. destruct sh.
    - specialize (Hperm n x). rewrite Hord in Hperm. simpl in Hperm.
      by rewrite Hperm, length_seq.
    - inversion Hord. by rewrite length_seq. }
  destruct (batch_sampler_spec B order [] HB) as
    (full & rest & -> & Hfull & _ & Hrest & _); [simpl; lia|].
  simpl in Hfull, Hrest. rewrite Hlen in Hfull, Hrest.
  rewrite loader_len_ceil, length_app, Hfull by done.
  destruct (n mod B =? 0); [by subst rest|].
  by destruct Hrest as (b & -> & _).
Qed.

Section Progress.
Variable num_epochs_ : nat.
Variable s0 : Scheduler.
Variables out0 art0 : list string.
Variable rates0 : list float.
Local Abbreviation progress_ := (progress num_epochs_ s0 out0 art0 rates0).

Lemma train_step_progress k vs batch st :
  progress_ k vs st →
  wp (train_step batch) (λ _, progress_ (S k) vs) (λ _, True) st.
Proof.
  destruct st as [m log]. intros (Hs & Hlr & Hrates & Hout & Hart).
  simpl in *.
  unfold train_step, model_call. wp_steps.
  destruct (model_forward _ _ _ _ _) as [r x']. wp_steps.
  apply wp_lift. destruct r as [outputs|e]; [|done].
  unfold loss_backward. wp_steps.
  apply wp_lift. destruct (loss_gradient outputs) as [grad|e]; [|done].
  unfold optimizer_step, lr_scheduler_step, optimizer_zero_grad. wp_steps.
  destruct (adamw_update _ _ _ _) as [w o]. simpl.
  unfold progress. cbn [fst snd].
  rewrite seq_S, fmap_app, !optimizer_rates_app, Hrates.
  simpl. rewrite Hs. split; [done|]. split; [done|].
  split; [|done].
  rewrite !app_nil_r, app_assoc. unfold rate_at at 2.
  by rewrite Hlr, Hs.
Qed.

Lemma training_pass_progress k vs ld st :
  randperm_contract randperm → 0 < batch_size ld →
  progress_ k vs st →
  wp (training_pass ld) (λ _, progress_ (k + len_loader ld) vs)
     (λ _, True) st.
Proof.
  intros Hperm HB. destruct st as [m log].
  intros (Hs & Hlr & Hrates & Hout & Hart). simpl in *.
  unfold training_pass, model_train. wp_steps.
  eapply wp_mono;
    [| | apply (wp_for_batches _ _ (λ i, progress_ (k + i) vs) (λ _, True))].
  - intros u st' (order & x' & Hord & Hst'). simpl in Hord.
    by rewrite (batch_count _ _ _ _ _ _ _ Hperm HB Hord) in Hst'.
  - done.
  - intros order x' _. split.
    + rewrite Nat.add_0_r. unfold progress. simpl.
      rewrite optimizer_rates_app, Hrates. simpl. by rewrite app_nil_r.
    + intros i indices st' _ Hst'.
      destruct (fetch ld indices) as [batch|e]; [|done].
      replace (k + S i) with (S (k + i)) by lia.
      by apply train_step_progress.
Qed.

Lemma wp_anything {A} (c : M A) st : wp c (λ _ _, True) (λ _, True) st.
Proof. unfold wp. by destruct (c st) as [[a|e] st']. Qed.

(** What the validation pass returns is a value reported by the metric. *)
Lemma validation_pass_value ld st :
  wp (validation_pass ld) (λ v _, metric_value v) (λ _, True) st.
Proof.
  destruct st as [m log].
  unfold validation_pass, model_eval, metric_reset. wp_steps.
  eapply wp_mono;
    [| | apply (wp_for_batches _ _ (λ _ _, True) (λ _, True))].
  - intros u [m' log'] _. cbv beta. unfold metric_compute. wp_steps.
    destruct (mean_iou_compute _ _ _ _) as [r acc'] eqn:Hcompute. wp_steps.
    apply wp_lift. destruct r as [results|e]; [|done].
    apply wp_lift. destruct (getkey _ _) as [v|e] eqn:Hv; [|done].
    apply getkey_ok in Hv. by eexists _, _, _, _, _, _.
  - done.
  - intros order x' _. split; [done|].
    intros i indices st' _ _.
    destruct (fetch ld indices) as [batch|e]; [|done].
    apply wp_anything.
Qed.

Lemma validation_pass_progress k vs ld st :
  progress_ k vs st →
  wp (validation_pass ld)
     (λ v st', progress_ k vs st' ∧ metric_value v) (λ _, True) st.
Proof.
  intros (Hs & Hlr & Hrates & Hout & Hart).
  eapply wp_mono;
    [| | apply (wp_conj _ _ _ _ _ _ (validation_pass_frozen ld st)
                  (validation_pass_value ld st))]; [|done].
  intros v st'
    [(_ & _ & _ & Hlr' & Hs' & Hout' & Hart' & more & Hlog & Hmore) Hv].
  split; [|done]. unfold progress.
  rewrite Hlr', Hs', Hout', Hart', Hlog, optimizer_rates_app.
  rewrite (optimizer_rates_inference more), app_nil_r; [done|].
  eapply Forall_impl; [exact Hmore|]. by intros e [He _].
Qed.

Lemma run_epoch_progress (g : Globals) k vs st :
  num_epochs g = num_epochs_ →
  randperm_contract randperm → 0 < batch_size (train_loader g) →
  progress_ k vs st →
  wp (run_epoch g (length vs))
     (λ _ st', ∃ v, metric_value v
        ∧ progress_ (k + len_loader (train_loader g)) (vs ++ [v]) st')
     (λ _, True) st.
Proof.
  intros HN Hperm HB Hp. unfold run_epoch. apply wp_bind.
  eapply wp_mono; [| | by apply training_pass_progress]; [|done].
  intros [] st1 Hp1. cbv beta. apply wp_bind.
  eapply wp_mono; [| | by apply validation_pass_progress]; [|done].
  intros v [m2 log2] [(Hs & Hlr & Hrates & Hout & Hart) Hv]. cbv beta.
  unfold print. wp_steps. exists v. split; [done|].
  unfold progress. simpl in *.
  split; [done|]. split; [done|]. split.
  - rewrite optimizer_rates_app, Hrates. simpl. by rewrite app_nil_r.
  - split; [|done].
    rewrite Hout, imap_app, app_assoc. simpl.
    by rewrite Nat.add_0_r, HN.
Qed.

End Progress.

(** A complete run of the epoch loop: [num_epochs * len(train_loader)]
    training steps, and one report line per epoch. *)
Lemma epoch_loop_progress (g : Globals) (st : St) :
  randperm_contract randperm → 0 < batch_size (train_loader g) →
  lr st.1 = scheduler_lr (scheduler st.1) →
  wp (epoch_loop g)
     (λ _ st', ∃ vs,
        length vs = num_epochs g
        ∧ Forall metric_value vs
        ∧ progress (num_epochs g) (scheduler st.1) (stdout st.1)
            (artifacts st.1) (optimizer_rates st.2)
            (num_epochs g * len_loader (train_loader g)) vs st')
     (λ _, True) st.
Proof.
  intros Hperm HB Hlr. unfold epoch_loop.
  set (P := progress (num_epochs g) (scheduler st.1) (stdout st.1)
              (artifacts st.1) (optimizer_rates st.2)).
  eapply wp_mono;
    [| | apply (wp_for_each _ _
                 (λ i st', ∃ vs, length vs = i ∧ Forall metric_value vs
                    ∧ P (i * len_loader (train_loader g)) vs st')
                 (λ _, True))].
  - intros u st' Hst'. by rewrite length_seq in Hst'.
  - done.
  - exists []. split; [done|]. split; [done|].
    unfold P, progress. simpl. by rewrite !app_nil_r.
  - intros i epoch st' Hi (vs & Hlen & Hvs & Hp).
    apply lookup_seq in Hi as [-> _]. simpl. subst i.
    eapply wp_mono;
      [| | eapply run_epoch_progress; [reflexivity|done|done|exact Hp]];
      [|done].
    intros u st'' (v & Hv & Hp'). exists (vs ++ [v]).
    split; [rewrite length_app; simpl; lia|].
    split; [apply Forall_app; by repeat constructor|].
    by rewrite Nat.add_comm in Hp'.
Qed.

End CompleteRun.

(** ** The cells before the loop *)

Lemma rmap_ok_each {A B} (f : A → result B) xs ys :
  rmap f xs = Ok ys → Forall (λ x, ∃ y, f x = Ok y) xs.
Proof.
  revert ys. induction xs as [|x xs IH]; simpl; intros ys H; [done|].
  apply rbind_ok in H as (y & Hy & H).
  apply rbind_ok in H as (ys' & Hys & _).
  constructor; [by exists y | by eapply IH].
Qed.

(** [select(range(n))] succeeds exactly on the empty collection and on
    collections of at least [n] items, and returns the first [n]. *)
Lemma hf_select_range {A} (n : nat) (d ys : list A) :
  hf_select (seq 0 n) d = Ok ys → (d = [] ∨ n ≤ length d) ∧ ys = take n d.
Proof.
  unfold hf_select. destruct d as [|x d'].
  { intros [= <-]. split; [by left | by rewrite take_nil]. }
  set (d := x :: d'). intros H.
  assert (n ≤ length d) as Hn.
  { destruct n as [|n]; [lia|].
    pose proof (rmap_ok_each _ _ _ H) as Hall.
    assert (n ∈ seq 0 (S n)) as Hin by (apply elem_of_seq; lia).
    destruct (proj1 (Forall_forall _ _) Hall n Hin) as [y Hy].
    apply getindex_ok, lookup_lt_Some in Hy. lia. }
  split; [by right|]. rewrite rmap_getindex_seq in H by done. congruence.
Qed.

Lemma hf_select_take {A} (n : nat) (d : list A) :
  d = [] ∨ n ≤ length d → hf_select (seq 0 n) d = Ok (take n d).
Proof.
  unfold hf_select. destruct d as [|x d']; [by rewrite take_nil|].
  intros [?|Hn]; [done|]. by apply rmap_getindex_seq.
Qed.

Lemma schedule_starts_at_peak :
  scheduler_lr (get_scheduler peak_lr 0 125) = peak_lr.
Proof. reflexivity. Qed.

Lemma schedule_ends_at_zero :
  rate_at (get_scheduler peak_lr 0 125) 125 = 0%float.
Proof. vm_compute. reflexivity. Qed.

(** The rate of the last update is not yet zero: it is one 125th of the
    peak. *)
Lemma schedule_last_update :
  PrimFloat.ltb 0%float (rate_at (get_scheduler peak_lr 0 125) 124) = true
  ∧ rate_at (get_scheduler peak_lr 0 125) 124
    = PrimFloat.mul peak_lr (PrimFloat.div 1 125).
Proof. split; vm_compute; reflexivity. Qed.

Section Setup.
Context `{F : Framework}.

(** A loader that was built is the record of its arguments; its batch size
    is positive, and a shuffling one is over at least one item. *)
Lemma DataLoader_ok d B sh ld :
  DataLoader d B sh = Ok ld →
  ld = mkLoader d B sh ∧ 0 < B ∧ (sh = true → 0 < dataset_len d).
Proof.
  unfold DataLoader.
  destruct (Nat.eqb_spec B 0) as [|HB]; [done|].
  destruct sh; cbn [andb].
  - destruct (Nat.eqb_spec (dataset_len d) 0) as [|Hd]; [done|].
    intros [= <-]. split; [done|]. split; lia.
  - intros [= <-]. split; [done|]. split; [lia | done].
Qed.

Lemma DataLoader_built d B sh :
  0 < B → (sh = true → 0 < dataset_len d) →
  DataLoader d B sh = Ok (mkLoader d B sh).
Proof.
  intros HB Hd. unfold DataLoader.
  destruct (Nat.eqb_spec B 0) as [|_]; [lia|].
  destruct sh; cbn [andb]; [|done].
  destruct (Nat.eqb_spec (dataset_len d) 0) as [Hz|_]; [|done].
  specialize (Hd eq_refl). lia.
Qed.

Lemma len_loader_100 {Array Image E} (d : list (gmap string Array))
    (proc : Image → Image → result (gmap string (Tensor E))) :
  100 ≤ length d →
  loader_len (dataset_len (mkDataset (take 100 d) proc)) 4 = 25.
Proof.
  intros Hn. unfold dataset_len. cbn [ds].
  rewrite length_take, Nat.min_l by done. reflexivity.
Qed.

Lemma setup_ok hub x0 g m :
  setup hub x0 = Ok (g, m) →
  ∃ train validation proc w w',
    hub !! "train" = Some train
    ∧ hub !! "validation" = Some validation
    ∧ processor_from_pretrained checkpoint = Ok proc
    ∧ model_from_pretrained checkpoint = Ok w
    ∧ evaluate_load "mean_iou" = Ok tt
    ∧ model_to_device w = Ok w'
    ∧ 100 ≤ length (hf_shuffle 42 train)
    ∧ (validation = [] ∨ 50 ≤ length validation)
    ∧ g = mkGlobals
            (mkLoader (mkDataset (take 100 (hf_shuffle 42 train)) proc) 4 true)
            (mkLoader (mkDataset (take 50 validation) proc) 2 false)
            5 125
    ∧ m = mkMachine w' grad_zero (adamw_init w) x0 true peak_lr
            (get_scheduler peak_lr 0 125) [] [] [].
Proof.
  unfold setup. intros H.
  apply rbind_ok in H as (train & Htrain%getkey_ok & H).
  apply rbind_ok in H as (train_ds & [Hn ->]%hf_select_range & H).
  apply rbind_ok in H as (validation & Hval%getkey_ok & H).
  apply rbind_ok in H as (val_ds & [Hk ->]%hf_select_range & H).
  apply rbind_ok in H as (proc & Hproc & H).
  apply rbind_ok in H as (w & Hw & H).
  apply rbind_ok in H as (trl & (-> & _ & Hsome)%DataLoader_ok & H).
  apply rbind_ok in H as (vl & (-> & _ & _)%DataLoader_ok & H).
  cbv zeta in H.
  apply rbind_ok in H as ([] & Hmetric & H).
  apply rbind_ok in H as (w' & Hmove & H).
  assert (100 ≤ length (hf_shuffle 42 train)) as Hn'.
  { destruct Hn as [Hnil|Hn]; [|done].
    specialize (Hsome eq_refl). unfold dataset_len in Hsome.
    cbn [ds] in Hsome. rewrite Hnil, take_nil in Hsome. simpl in Hsome. lia. }
  unfold len_loader in H. cbn [dataset batch_size] in H.
  rewrite len_loader_100 in H by done.
  change (5 * 25) with 125 in H.
  change (scheduler_lr (get_scheduler peak_lr 0 125)) with peak_lr in H.
  inversion H.
  by exists train, validation, proc, w, w'.
Qed.

(** C6 (as amended).  When the cells before the loop complete, the
    configuration is: training loader of batch size 4, shuffling, over the
    first 100 items of the train partition shuffled with seed 42, which are
    100 items; validation loader of batch size 2, not shuffling, over the
    first 50 items of the validation partition, which are 50 items unless
    the validation partition is empty, and then none; 5 epochs; a scheduler
    with peak rate 5e-5, no warm-up step and 5 * 25 = 125 training steps,
    whose decay is the linear one; and the optimizer's rate is the peak
    rate. *)
Theorem setup_fixed_configuration hub x0 g m :
  setup hub x0 = Ok (g, m) →
  ∃ train validation,
    hub !! "train" = Some train
    ∧ hub !! "validation" = Some validation
    ∧ batch_size (train_loader g) = 4
    ∧ shuffle (train_loader g) = true
    ∧ ds (dataset (train_loader g)) = take 100 (hf_shuffle 42 train)
    ∧ dataset_len (dataset (train_loader g)) = 100
    ∧ batch_size (val_loader g) = 2
    ∧ shuffle (val_loader g) = false
    ∧ ds (dataset (val_loader g)) = take 50 validation
    ∧ (validation ≠ [] → dataset_len (dataset (val_loader g)) = 50)
    ∧ (validation = [] → dataset_len (dataset (val_loader g)) = 0)
    ∧ num_epochs g = 5
    ∧ num_steps g = num_epochs g * len_loader (train_loader g)
    ∧ lr m = 5e-5%float
    ∧ scheduler m = get_scheduler 5e-5%float 0 (num_steps g)
    ∧ (∀ k, rate_at (scheduler m) k
            = PrimFloat.mul 5e-5%float (lr_lambda 0 (num_steps g) k)).
Proof.
  intros H.
  apply setup_ok in H
    as (train & validation & proc & w & w' & Ht & Hv & _ & _ & _ & _ & Hn
        & Hk & -> & ->).
  exists train, validation. cbn [train_loader val_loader num_epochs num_steps
    lr scheduler batch_size shuffle dataset ds].
  unfold len_loader, dataset_len.
  cbn [train_loader val_loader num_epochs num_steps
    lr scheduler batch_size shuffle dataset ds].
  rewrite (length_take (hf_shuffle 42 train)), (Nat.min_l 100) by done.
  do 9 (split; [done|]).
  split.
  { intros Hne. destruct Hk as [?|Hk]; [done|].
    by rewrite length_take, Nat.min_l. }
  split; [by intros ->|].
  do 4 (split; [done|]).
  intros k. unfold rate_at, scheduler_lr.
  assert (∀ s, Nat.iter k scheduler_advance s
               = mkScheduler (base_lr s) (num_warmup_steps s)
                   (num_training_steps s) (k + last_epoch s)) as ->.
  { induction k as [|k IH]; intros [b wu tot le]; simpl; [done|].
    by rewrite IH. }
  simpl. by rewrite Nat.add_0_r.
Qed.

End Setup.

(** ** The format of the report *)

Section Formatting.
Local Open Scope Z_scope.

Lemma digit_char_digit (d : Z) :
  (0 ≤ d < 10)%Z →
  is_digit (digit_char d) = true
  ∧ (Z.of_nat (nat_of_ascii (digit_char d)) - 48 = d)%Z.
Proof.
  intros Hd.
  assert (d = 0 ∨ d = 1 ∨ d = 2 ∨ d = 3 ∨ d = 4 ∨ d = 5 ∨ d = 6 ∨ d = 7
          ∨ d = 8 ∨ d = 9)%Z as Hcases by lia.
  repeat (destruct Hcases as [->|Hcases]; [by vm_compute|]).
  subst d. by vm_compute.
Qed.

(** A count of ten-thousandths between 0 and 10000 is printed as one digit,
    a point and four digits, and reads back as the same count. *)
Lemma fixed4_shape (n : Z) :
  (0 ≤ n ≤ 10000)%Z →
  is_fixed4 (fixed4 n) = true
  ∧ fixed4_value (fixed4 n) = Some n
  ∧ (is_zero_point4 (fixed4 n) = true ∨ fixed4 n = "1.0000").
Proof.
  intros Hn. destruct (decide (n = 10000%Z)) as [->|Hne].
  { split; [by vm_compute|]. split; [by vm_compute | by right]. }
  assert (0 ≤ n < 10000)%Z as Hlt by lia.
  assert (fixed4 n
          = String "0" (String "." (String (digit_char (n / 1000 mod 10))
              (String (digit_char (n / 100 mod 10))
              (String (digit_char (n / 10 mod 10))
              (String (digit_char (n mod 10)) EmptyString)))))) as ->.
  { unfold fixed4. replace (n / 10000)%Z with 0%Z
      by (symmetry; apply Z.div_small; lia).
    reflexivity. }
  destruct (digit_char_digit (n / 1000 mod 10)) as [H1 V1];
    [apply Z.mod_pos_bound; lia|].
  destruct (digit_char_digit (n / 100 mod 10)) as [H2 V2];
    [apply Z.mod_pos_bound; lia|].
  destruct (digit_char_digit (n / 10 mod 10)) as [H3 V3];
    [apply Z.mod_pos_bound; lia|].
  destruct (digit_char_digit (n mod 10)) as [H4 V4];
    [apply Z.mod_pos_bound; lia|].
  cbv beta iota zeta delta [is_zero_point4 is_fixed4 fixed4_value].
  rewrite H1, H2, H3, H4, V1, V2, V3, V4.
  change (is_digit "0") with true.
  change (Z.of_nat (nat_of_ascii "0") - 48)%Z with 0%Z.
  split; [done|]. split; [|by left].
  f_equal. Z.to_euclidean_division_equations. lia.
Qed.

Lemma round_half_even_bounds (num den bound : Z) :
  (0 < den)%Z → (0 ≤ num ≤ bound * den)%Z →
  (0 ≤ round_half_even num den ≤ bound)%Z.
Proof.
  intros Hden Hnum. unfold round_half_even.
  pose proof (Z.div_mod num den ltac:(lia)) as Hdm.
  pose proof (Z.mod_pos_bound num den Hden) as Hr.
  assert (0 ≤ num / den)%Z as Hq0 by (apply Z.div_pos; lia).
  assert (num / den ≤ bound)%Z as Hq.
  { apply Z.div_le_upper_bound; lia. }
  assert (num / den = bound → num mod den = 0)%Z as Hfull.
  { intros Hb. rewrite Hb in Hdm. lia. }
  destruct (Z.compare_spec (2 * (num mod den)) den) as [Heq|Hlt|Hgt].
  - destruct (Z.even (num / den)); [lia|].
    destruct (decide (num / den = bound)) as [Hb|Hb]; [|lia].
    specialize (Hfull Hb). lia.
  - lia.
  - destruct (decide (num / den = bound)) as [Hb|Hb]; [|lia].
    specialize (Hfull Hb). lia.
Qed.


End Formatting.

(** ** The whole notebook *)

Section WholeNotebook.
Context `{F : Framework}.

Lemma complete_console_inv r out :
  complete_console r = Some out →
  ∃ st, r = Ok (Ok tt, st) ∧ stdout st.1 = out.
Proof.
  destruct r as [[[[]|e] st]|e]; simpl; [|done..].
  intros [= <-]. by exists st.
Qed.

(** A complete run: 125 training steps, five reports. *)
Lemma notebook_progress hub x0 st :
  randperm_contract randperm →
  notebook hub x0 = Ok (Ok tt, st) →
  ∃ g m vs,
    setup hub x0 = Ok (g, m)
    ∧ num_steps g = 125
    ∧ length vs = 5
    ∧ Forall metric_value vs
    ∧ progress 5 (get_scheduler peak_lr 0 125) [] [] [] 125 vs st.
Proof.
  intros Hperm H. unfold notebook in H.
  apply rbind_ok in H as ([g m] & Hsetup & H).
  exists g, m.
  destruct (setup_ok _ _ _ _ Hsetup)
    as (train & validation & proc & w & w' & _ & _ & _ & _ & _ & _ & Hn & _
        & Hg & Hm).
  pose proof (wp_outcome _ _ _ _
                (epoch_loop_progress g (m, []) Hperm
                   ltac:(subst g; simpl; lia) ltac:(by subst m))) as Hrun.
  inversion H as [Hloop]. rewrite Hloop in Hrun. simpl in Hrun.
  destruct Hrun as (vs & Hlen & Hvs & Hp).
  exists vs. subst g m. simpl in *.
  assert (len_loader
            (mkLoader (mkDataset (take 100 (hf_shuffle 42 train)) proc) 4 true)
          = 25) as Hlen25.
  { unfold len_loader, dataset_len. simpl.
    rewrite length_take, Nat.min_l by done. reflexivity. }
  rewrite Hlen25 in Hp. done.
Qed.

(** C3.  In a complete run of the notebook, the number of training steps is
    5 * ceil(100/4) = 125: the optimizer is updated exactly 125 times.  The
    rate in force at step 1 (that of the first update) is 5e-5; each
    scheduler step moves the rate along the linear schedule; and with the
    scheduler step of step 125 the rate reaches exactly 0, which is the rate
    the run ends with. *)
Theorem training_steps_and_learning_rate hub x0 st :
  randperm_contract randperm →
  notebook hub x0 = Ok (Ok tt, st) →
  5 * loader_len 100 4 = 125
  ∧ (∃ g m, setup hub x0 = Ok (g, m) ∧ num_steps g = 125
            ∧ scheduler m = get_scheduler peak_lr 0 125)
  ∧ length (optimizer_rates st.2) = 125
  ∧ optimizer_rates st.2
    = rate_at (get_scheduler peak_lr 0 125) <$> seq 0 125
  ∧ optimizer_rates st.2 !! 0 = Some 5e-5%float
  ∧ last_epoch (scheduler st.1) = 125
  ∧ rate_at (get_scheduler peak_lr 0 125) 125 = 0%float
  ∧ lr st.1 = 0%float.
Proof.
  intros Hperm H.
  destruct (notebook_progress _ _ _ Hperm H)
    as (g & m & vs & Hsetup & Hsteps & _ & _ & Hs & Hlr & Hrates & _ & _).
  rewrite app_nil_l in Hrates.
  split; [reflexivity|]. split.
  { exists g, m. split; [done|]. split; [done|].
    by destruct (setup_ok _ _ _ _ Hsetup)
      as (? & ? & ? & ? & ? & _ & _ & _ & _ & _ & _ & _ & _ & _ & ->). }
  split; [by rewrite Hrates, length_fmap, length_seq|].
  split; [done|]. split.
  { rewrite Hrates, list_lookup_fmap, lookup_seq_lt by lia. reflexivity. }
  split.
  { rewrite Hs. reflexivity. }
  split; [apply schedule_ends_at_zero|].
  rewrite Hlr, Hs. apply schedule_ends_at_zero.
Qed.


End WholeNotebook.

(** *** Concrete runs *)



(** An instance: the notebook run on 120 training and 60 validation items
    with the concrete collaborators. *)
Lemma training_steps_and_learning_rate_witness :
  ∃ st,
    @notebook (Toy.framework 0.5) (Toy.hub 120 60) 0 = Ok (Ok tt, st)
    ∧ length (optimizer_rates st.2) = 125
    ∧ optimizer_rates st.2 !! 0 = Some 5e-5%float
    ∧ lr st.1 = 0%float.
Proof.
  destruct (complete_console_inv
              (@notebook (Toy.framework 0.5) (Toy.hub 120 60) 0)
              [ "Epoch 1/5 — mIoU: 0.5000"; "Epoch 2/5 — mIoU: 0.5000";
                "Epoch 3/5 — mIoU: 0.5000"; "Epoch 4/5 — mIoU: 0.5000";
                "Epoch 5/5 — mIoU: 0.5000" ]) as (st & Hst & _).
  { vm_compute. reflexivity. }
  exists st. split; [exact Hst|].
  destruct (@training_steps_and_learning_rate (Toy.framework 0.5)
              (Toy.hub 120 60) 0 st permute_contract Hst)
    as (_ & _ & H1 & _ & H2 & _ & _ & H3).
  split; [exact H1|]. split; [exact H2 | exact H3].
Defined.


(** The notebook itself starts the loop with clear accumulators, so in any
    run of it, complete or not, every backward pass finds them clear. *)
Lemma notebook_backward_starts_from_zero `{F : Framework} hub x0 r st :
  notebook hub x0 = Ok (r, st) →
  Forall backward_sees_zero st.2 ∧ zero_grad_follows st.2.
Proof.
  unfold notebook. intros H.
  apply rbind_ok in H as ([g m] & Hsetup & H).
  destruct (setup_ok _ _ _ _ Hsetup)
    as (train & validation & proc & w & w' & _ & _ & _ & _ & _ & _ & _ & _
        & _ & Hm).
  pose proof (wp_outcome _ _ _ _
                (epoch_loop_hygienic g (m, []) ltac:(by subst m))) as Hwp.
  inversion H as [Hloop]. rewrite Hloop in Hwp. simpl in Hwp.
  assert (hygienic_since [] st) as (new & Hlog & Hall & Hfol & _).
  { destruct r as [[]|e]; [by destruct Hwp | done]. }
  simpl in Hlog. by subst new.
Qed.

(** An instance: the epoch loop of the small configuration. *)
Lemma backward_starts_from_zero_grads_witness :
  ∃ new, (epoch_loop Toy.globals (Toy.machine, [])).2.2 = [] ++ new
         ∧ Forall backward_sees_zero new
         ∧ zero_grad_follows new.
Proof.
  exact (proj1 (@backward_starts_from_zero_grads (Toy.framework 0.5)
                  Toy.globals (Toy.machine, []) eq_refl)).
Defined.

Lemma result_ok_inv {A} (r : result A) :
  (match r with Ok _ => true | Raise _ => false end) = true →
  ∃ a, r = Ok a.
Proof. destruct r as [a|e]; [by exists a | discriminate]. Qed.

(** An instance: the cells before the loop, on 120 training and 60
    validation items. *)
Lemma setup_fixed_configuration_witness :
  ∃ g m, @setup (Toy.framework 0.5) (Toy.hub 120 60) 0 = Ok (g, m)
         ∧ batch_size (train_loader g) = 4
         ∧ dataset_len (dataset (train_loader g)) = 100
         ∧ batch_size (val_loader g) = 2
         ∧ num_epochs g = 5
         ∧ lr m = 5e-5%float.
Proof.
  destruct (result_ok_inv (@setup (Toy.framework 0.5) (Toy.hub 120 60) 0))
    as [[g m] H]; [vm_compute; reflexivity|].
  exists g, m. split; [exact H|].
  destruct (@setup_fixed_configuration (Toy.framework 0.5) _ _ _ _ H)
    as (train & validation & _ & _ & H1 & _ & _ & H0 & H2 & _ & _ & _ & _
        & H3 & _ & H4 & _).
  split; [exact H1|]. split; [exact H0|]. split; [exact H2|].
  split; [exact H3 | exact H4].
Defined.

(** C6, counterexample.  On a hub dataset whose validation partition is
    empty (and whose train partition has 120 items) the cells before the
    loop complete, and the validation subset holds no sample, not 50:
    [select] returns an empty dataset as it is. *)
Lemma validation_subset_can_be_empty :
  ∃ g m, @setup (Toy.framework 0.5) (Toy.hub 120 0) 0 = Ok (g, m)
         ∧ Toy.hub 120 0 !! "validation" = Some []
         ∧ dataset_len (dataset (val_loader g)) = 0
         ∧ ¬ claimed_subset_sizes g.
Proof.
  assert (Toy.hub 120 0 !! "validation" = Some []) as Hv.
  { unfold Toy.hub. rewrite lookup_insert_ne by done.
    apply lookup_insert_eq. }
  destruct (result_ok_inv (@setup (Toy.framework 0.5) (Toy.hub 120 0) 0))
    as [[g m] H]; [vm_compute; reflexivity|].
  exists g, m. split; [exact H|]. split; [exact Hv|].
  destruct (@setup_ok (Toy.framework 0.5) _ _ _ _ H)
    as (train & validation & proc & w & w' & _ & Hv' & _ & _ & _ & _ & _ & _
        & -> & _).
  pose proof (eq_trans (eq_sym Hv) Hv') as [= <-].
  split; [reflexivity|]. by intros [_ Hval].
Qed.

(** * Further properties of the notebook's code *)

(** ** The dataset adapter: errors and shapes *)

Section AdapterErrors.
Context {Array Image E : Type}.
Variable fromarray : Array → result Image.
Implicit Types self : SegmentationDataset Array Image E.

(** X1.  An index at or beyond the length of the adapter makes
    [__getitem__] raise IndexError, whatever the conversion to images and the
    encoder would do: neither is reached. *)
Theorem getitem_out_of_range self idx :
  dataset_len self ≤ idx →
  getitem fromarray self idx = Raise IndexError.
Proof.
  intros Hidx. unfold getitem, encode_item, getindex.
  by rewrite lookup_ge_None_2.
Qed.

(** X2.  When the raw item at the index has no field [image],
    [__getitem__] raises KeyError for [image], also when the mask field is
    missing too; when it has an image that converts but no field
    [segmentation_mask], it raises KeyError for [segmentation_mask].  The
    encoder is not reached in either case. *)
Theorem getitem_missing_field self idx item :
  ds self !! idx = Some item →
  (item !! "image" = None →
   getitem fromarray self idx = Raise (KeyError "image"))
  ∧ (∀ a image, item !! "image" = Some a → fromarray a = Ok image →
       item !! "segmentation_mask" = None →
       getitem fromarray self idx = Raise (KeyError "segmentation_mask")).
Proof.
  intros Hitem. split.
  - intros Himg. unfold getitem, encode_item, getindex.
    rewrite Hitem. cbn [rbind]. unfold getkey. by rewrite Himg.
  - intros a image Ha Himage Hmask.
    unfold getitem, encode_item, getindex. rewrite Hitem. cbn [rbind].
    unfold getkey. rewrite Ha. cbn [rbind]. rewrite Himage. cbn [rbind].
    by rewrite Hmask.
Qed.

Lemma squeeze_no_singleton (t : Tensor E) : 1 ∉ shape (squeeze t).
Proof.
  unfold squeeze. simpl. intros Hin.
  apply list_elem_of_filter in Hin as [Hne _]. done.
Qed.

Lemma numel_filter (dims : list nat) :
  numel (filter (λ d, d ≠ 1) dims) = numel dims.
Proof.
  induction dims as [|d dims IH]; [done|].
  destruct (decide (d = 1)) as [->|Hd].
  - rewrite filter_cons_False by (intros ?; congruence).
    simpl. rewrite IH. lia.
  - rewrite filter_cons_True by done. simpl. by rewrite IH.
Qed.

(** X3.  No tensor returned by [__getitem__] has a dimension of size 1, and
    squeezing it again changes nothing. *)
Theorem getitem_no_singleton_dimension self idx sample k t :
  getitem fromarray self idx = Ok sample →
  sample !! k = Some t →
  (1 ∉ shape t) ∧ squeeze t = t.
Proof.
  intros H Hk. apply getitem_ok in H as (encoded & _ & ->).
  rewrite lookup_fmap in Hk.
  destruct (encoded !! k) as [t0|]; [|done]. simpl in Hk.
  inversion Hk; subst. split; [apply squeeze_no_singleton|].
  unfold squeeze. simpl. f_equal.
  rewrite list_filter_filter. apply list_filter_iff. tauto.
Qed.

(** X4.  [__getitem__] keeps the number of elements: a returned tensor's
    shape describes as many elements as the encoded tensor's shape, so a
    well-formed encoding gives well-formed samples. *)
Theorem getitem_keeps_element_count self idx sample :
  getitem fromarray self idx = Ok sample →
  ∃ encoded,
    encode_item fromarray self idx = Ok encoded
    ∧ ∀ k t, sample !! k = Some t →
        ∃ t0, encoded !! k = Some t0
              ∧ numel (shape t) = numel (shape t0)
              ∧ length (data t) = length (data t0)
              ∧ (well_formed t0 → well_formed t).
Proof.
  intros H. apply getitem_ok in H as (encoded & He & ->).
  exists encoded. split; [done|]. intros k t Hk.
  rewrite lookup_fmap in Hk.
  destruct (encoded !! k) as [t0|]; [|done]. simpl in Hk.
  inversion Hk; subst. exists t0. split; [done|].
  unfold well_formed, squeeze. simpl. rewrite numel_filter.
  by repeat split.
Qed.

End AdapterErrors.

(** An instance: index 2 of the adapter over two items. *)
Lemma getitem_out_of_range_witness :
  getitem (λ a : nat, Ok a) Toy.rgb_adapter 2 = Raise IndexError.
Proof.
  exact (getitem_out_of_range (λ a, Ok a) Toy.rgb_adapter 2
           ltac:(vm_compute; lia)).
Defined.

(** An instance: the item without a mask field. *)
Lemma getitem_missing_field_witness :
  getitem (λ a : nat, Ok a) maskless_adapter 0
  = Raise (KeyError "segmentation_mask").
Proof.
  refine (proj2 (getitem_missing_field (λ a, Ok a) maskless_adapter 0
                   (<["image" := 5]> ∅) eq_refl) 5 5 _ eq_refl _);
    by vm_compute.
Defined.

(** An instance: the sample at index 0 of the single-channel adapter. *)
Lemma getitem_no_singleton_dimension_witness :
  ∃ sample, getitem (λ a : nat, Ok a) Toy.gray_adapter 0 = Ok sample
    ∧ ∀ k t, sample !! k = Some t → 1 ∉ shape t.
Proof.
  destruct (getitem (λ a : nat, Ok a) Toy.gray_adapter 0) as [sample|e] eqn:Hs;
    [| by vm_compute in Hs].
  exists sample. split; [done|]. intros k t Hk.
  exact (proj1 (getitem_no_singleton_dimension (λ a, Ok a)
                  Toy.gray_adapter 0 sample k t Hs Hk)).
Defined.

(** An instance: the sample at index 1. *)
Lemma getitem_keeps_element_count_witness :
  ∃ sample encoded,
    getitem (λ a : nat, Ok a) Toy.rgb_adapter 1 = Ok sample
    ∧ encode_item (λ a : nat, Ok a) Toy.rgb_adapter 1 = Ok encoded.
Proof.
  destruct (getitem (λ a : nat, Ok a) Toy.rgb_adapter 1) as [sample|e] eqn:Hs;
    [| by vm_compute in Hs].
  destruct (getitem_keeps_element_count (λ a, Ok a) Toy.rgb_adapter 1
              sample Hs) as (encoded & He & _).
  by exists sample, encoded.
Defined.

(** ** The cells before the loop: when they complete and how they fail *)

Lemma rmap_getindex_short {A} (d : list A) (k n : nat) :
  k ≤ length d → length d < k + n →
  rmap (getindex d) (seq k n) = Raise IndexError.
Proof.
  revert k. induction n as [|n IH]; intros k Hk Hlen; [lia|]. simpl.
  unfold getindex at 1.
  destruct (d !! k) as [x|] eqn:Hx; [|done]. cbn [rbind].
  apply lookup_lt_Some in Hx.
  by rewrite IH by lia.
Qed.

(** [select(range(n))] on a collection that is not empty and has fewer
    than [n] items. *)
Lemma hf_select_short {A} (d : list A) (n : nat) :
  0 < length d < n → hf_select (seq 0 n) d = Raise IndexError.
Proof.
  intros Hn. unfold hf_select. destruct d as [|x d']; [simpl in Hn; lia|].
  apply rmap_getindex_short; lia.
Qed.

Section SetupOutcomes.
Context `{F : Framework}.

(** X5.  The cells before the loop complete whenever the hub dataset has a
    train partition of at least 100 items (after shuffling) and a validation
    partition that is empty or of at least 50 items, and the processor, the
    model and the metric load and the model moves to the device.  The run
    then starts with the two subsets in the loaders, the moved weights,
    clear gradient accumulators, a fresh optimizer on the loaded
    parameters, the model in training mode, an empty metric accumulator, an
    empty console and no file. *)
Theorem setup_succeeds hub x0 train validation proc w w' :
  hub !! "train" = Some train →
  hub !! "validation" = Some validation →
  100 ≤ length (hf_shuffle 42 train) →
  validation = [] ∨ 50 ≤ length validation →
  processor_from_pretrained checkpoint = Ok proc →
  model_from_pretrained checkpoint = Ok w →
  evaluate_load "mean_iou" = Ok tt →
  model_to_device w = Ok w' →
  ∃ g m,
    setup hub x0 = Ok (g, m)
    ∧ ds (dataset (train_loader g)) = take 100 (hf_shuffle 42 train)
    ∧ ds (dataset (val_loader g)) = take 50 validation
    ∧ processor (dataset (train_loader g)) = proc
    ∧ processor (dataset (val_loader g)) = proc
    ∧ weights m = w'
    ∧ grads m = grad_zero
    ∧ opt_state m = adamw_init w
    ∧ ambient m = x0
    ∧ training m = true
    ∧ accumulator m = []
    ∧ stdout m = []
    ∧ artifacts m = [].
Proof.
  intros Ht Hv Hn Hk Hproc Hw Hmetric Hmove. unfold setup, getkey.
  rewrite Ht. cbn [rbind]. rewrite hf_select_take by (by right).
  cbn [rbind]. rewrite Hv. cbn [rbind]. rewrite hf_select_take by done.
  cbn [rbind]. rewrite Hproc, Hw. cbn [rbind].
  rewrite DataLoader_built; [|lia|]; cycle 1.
  { intros _. unfold dataset_len. cbn [ds].
    rewrite length_take, Nat.min_l by done. lia. }
  cbn [rbind]. rewrite DataLoader_built by (done || lia).
  cbn [rbind]. cbv zeta. rewrite Hmetric, Hmove. cbn [rbind].
  eexists _, _. split; [reflexivity|]. by repeat split.
Qed.

(** X6.  How the cells before the loop fail, in the order of the cells.  A
    hub dataset without a train partition raises KeyError; a train
    partition of 1 to 99 items raises IndexError at [select]; an empty one
    passes [select].  Then a missing validation partition raises KeyError
    and one of 1 to 49 items raises IndexError; an empty one is no failure.
    Then a failure to load the processor, or after it the model, is the
    failure of the run.  Then the training loader refuses an empty training
    subset with ValueError.  With the loaders built, a failure to load the
    metric, or after it to move the model to the device, is the failure of
    the run. *)
Theorem setup_failures hub x0 :
  (hub !! "train" = None → setup hub x0 = Raise (KeyError "train"))
  ∧ ∀ train, hub !! "train" = Some train →
      (0 < length (hf_shuffle 42 train) < 100 →
       setup hub x0 = Raise IndexError)
      ∧ (hf_shuffle 42 train = [] ∨ 100 ≤ length (hf_shuffle 42 train) →
         (hub !! "validation" = None →
          setup hub x0 = Raise (KeyError "validation"))
         ∧ ∀ validation, hub !! "validation" = Some validation →
             (0 < length validation < 50 → setup hub x0 = Raise IndexError)
             ∧ (validation = [] ∨ 50 ≤ length validation →
                (∀ e, processor_from_pretrained checkpoint = Raise e →
                      setup hub x0 = Raise e)
                ∧ ∀ proc, processor_from_pretrained checkpoint = Ok proc →
                    (∀ e, model_from_pretrained checkpoint = Raise e →
                          setup hub x0 = Raise e)
                    ∧ ∀ w, model_from_pretrained checkpoint = Ok w →
                        (hf_shuffle 42 train = [] →
                         setup hub x0 = Raise ValueError)
                        ∧ (100 ≤ length (hf_shuffle 42 train) →
                           (∀ e, evaluate_load "mean_iou" = Raise e →
                                 setup hub x0 = Raise e)
                           ∧ (∀ e, evaluate_load "mean_iou" = Ok tt →
                                   model_to_device w = Raise e →
                                   setup hub x0 = Raise e)))).
Proof.
  unfold setup, getkey. split.
  { intros Ht. by rewrite Ht. }
  intros train Ht. rewrite Ht. cbn [rbind]. split.
  { intros Hn. by rewrite hf_select_short. }
  intros Hn. rewrite hf_select_take by done. cbn [rbind]. split.
  { intros Hv. by rewrite Hv. }
  intros validation Hv. rewrite Hv. cbn [rbind]. split.
  { intros Hk. by rewrite hf_select_short. }
  intros Hk. rewrite hf_select_take by done. cbn [rbind]. split.
  { intros e He. by rewrite He. }
  intros proc Hproc. rewrite Hproc. cbn [rbind]. split.
  { intros e He. by rewrite He. }
  intros w Hw. rewrite Hw. cbn [rbind]. split.
  { intros Hnil. rewrite Hnil, take_nil. reflexivity. }
  intros H100. rewrite DataLoader_built; [|lia|]; cycle 1.
  { intros _. unfold dataset_len. cbn [ds].
    rewrite length_take, Nat.min_l by done. lia. }
  cbn [rbind]. rewrite DataLoader_built by (done || lia).
  cbn [rbind]. cbv zeta. split.
  { intros e He. by rewrite He. }
  intros e Hmetric He. by rewrite Hmetric, He.
Qed.

End SetupOutcomes.

(** An instance: 120 training and 60 validation items. *)
Lemma setup_succeeds_witness :
  ∃ g m, @setup (Toy.framework 0.5) (Toy.hub 120 60) 7 = Ok (g, m)
         ∧ training m = true ∧ ambient m = 7.
Proof.
  assert (Toy.hub 120 60 !! "train" = Some (Toy.raw_item <$> seq 0 120))
    as Ht by apply lookup_insert_eq.
  assert (Toy.hub 120 60 !! "validation"
          = Some (Toy.raw_item <$> seq 1000 60)) as Hv.
  { unfold Toy.hub. rewrite lookup_insert_ne by done.
    apply lookup_insert_eq. }
  assert (100 ≤ length (@hf_shuffle (Toy.framework 0.5) 42
                          (Toy.raw_item <$> seq 0 120))) as Hn.
  { change (100 ≤ length (rev (Toy.raw_item <$> seq 0 120))).
    rewrite length_rev, length_fmap, length_seq. lia. }
  assert (50 ≤ length (Toy.raw_item <$> seq 1000 60)) as Hk.
  { rewrite length_fmap, length_seq. lia. }
  destruct (@setup_succeeds (Toy.framework 0.5) (Toy.hub 120 60) 7
              _ _ Toy.encode 0%Z 0%Z Ht Hv Hn (or_intror Hk)
              eq_refl eq_refl eq_refl eq_refl)
    as (g & m & H & _ & _ & _ & _ & _ & _ & _ & Hx & Htr & _).
  by exists g, m.
Defined.

(** An instance: a train partition of ten items fails at [select]; an empty
    one fails when the training loader is built. *)
Lemma setup_failures_witness :
  @setup (Toy.framework 0.5) (Toy.hub 10 60) 0 = Raise IndexError
  ∧ @setup (Toy.framework 0.5) (Toy.hub 0 60) 0 = Raise ValueError.
Proof.
  split.
  - assert (Toy.hub 10 60 !! "train" = Some (Toy.raw_item <$> seq 0 10))
      as Ht by apply lookup_insert_eq.
    refine (proj1 (proj2 (@setup_failures (Toy.framework 0.5)
                            (Toy.hub 10 60) 0) _ Ht) _).
    change (0 < length (rev (Toy.raw_item <$> seq 0 10)) < 100).
    rewrite length_rev, length_fmap, length_seq. lia.
  - assert (Toy.hub 0 60 !! "train" = Some []) as Ht
      by apply lookup_insert_eq.
    assert (Toy.hub 0 60 !! "validation"
            = Some (Toy.raw_item <$> seq 1000 60)) as Hv.
    { unfold Toy.hub. rewrite lookup_insert_ne by done.
      apply lookup_insert_eq. }
    assert (50 ≤ length (Toy.raw_item <$> seq 1000 60)) as Hk.
    { rewrite length_fmap, length_seq. lia. }
    destruct (@setup_failures (Toy.framework 0.5) (Toy.hub 0 60) 0)
      as [_ H].
    destruct (H _ Ht) as [_ H1].
    destruct (H1 (or_introl eq_refl)) as [_ H2].
    destruct (H2 _ Hv) as [_ H3].
    destruct (H3 (or_intror Hk)) as [_ H4].
    destruct (H4 Toy.encode eq_refl) as [_ H5].
    destruct (H5 0%Z eq_refl) as [H6 _].
    exact (H6 eq_refl).
Defined.

(** ** The steps of the loop, in closed form *)

Section StepEffects.
Context `{F : Framework}.

Lemma train_step_effect batch m log :
  train_step batch (m, log)
  = train_step_outcome m log
      (model_forward (training m) true (weights m) (to_device <$> batch)
         (ambient m)).1
      (model_forward (training m) true (weights m) (to_device <$> batch)
         (ambient m)).2.
Proof.
  unfold train_step, model_call, loss_backward, optimizer_step,
    lr_scheduler_step, optimizer_zero_grad, train_step_outcome,
    train_step_machine, train_step_journal, after_schedule, after_update,
    after_backward, bind, call, update, get_machine, lift.
  cbn [fst snd].
  destruct (model_forward _ _ _ _ _) as [[outputs|e] x']; cbn [fst snd];
    [|done].
  destruct (loss_gradient outputs) as [g|e]; cbn [fst snd].
  - by rewrite <- !app_assoc.
  - by rewrite <- !app_assoc.
Qed.

Lemma val_step_effect batch m log :
  val_step batch (m, log)
  = val_step_outcome (to_device <$> batch) m log
      (model_forward (training m) false (weights m) (to_device <$> batch)
         (ambient m)).1
      (model_forward (training m) false (weights m) (to_device <$> batch)
         (ambient m)).2.
Proof.
  unfold val_step, model_call, metric_add_batch, val_step_outcome, getkey,
    bind, call, update, get_machine, lift.
  cbn [fst snd].
  destruct (model_forward _ _ _ _ _) as [[outputs|e] x']; cbn [fst snd];
    [|done].
  destruct (logits_argmax outputs) as [preds|e]; [|done].
  destruct ((to_device <$> batch) !! "labels") as [labels|]; [|done].
  by rewrite <- !app_assoc.
Qed.

(** What a training step leaves alone, and what it sets. *)
Lemma train_step_machine_fields m x' g :
  training (train_step_machine m x' g) = training m
  ∧ accumulator (train_step_machine m x' g) = accumulator m
  ∧ stdout (train_step_machine m x' g) = stdout m
  ∧ artifacts (train_step_machine m x' g) = artifacts m
  ∧ ambient (train_step_machine m x' g) = x'
  ∧ grads (train_step_machine m x' g) = grad_zero
  ∧ scheduler (train_step_machine m x' g) = scheduler_advance (scheduler m)
  ∧ lr (train_step_machine m x' g)
    = scheduler_lr (scheduler_advance (scheduler m)).
Proof.
  unfold train_step_machine, after_schedule, after_update, after_backward.
  cbn [set_ambient set_grads lr weights grads opt_state].
  destruct (adamw_update _ _ _ _) as [w o]. by repeat split.
Qed.

(** The machines found by the calls of a training step. *)
Lemma train_step_journal_fields m x' g :
  Forall (λ e : Call * Machine,
            training_call e.1 = true
            ∧ training e.2 = training m
            ∧ accumulator e.2 = accumulator m
            ∧ stdout e.2 = stdout m
            ∧ artifacts e.2 = artifacts m)
    (train_step_journal m x' g).
Proof.
  unfold train_step_journal, after_schedule, after_update, after_backward.
  cbn [set_ambient set_grads lr weights grads opt_state].
  destruct (adamw_update _ _ _ _) as [w o].
  by repeat constructor.
Qed.

End StepEffects.

(** ** Rules for the two passes of an epoch *)

Section PassRules.
Context `{F : Framework}.
Variable I : nat → St → Prop.
Variable E : St → Prop.
Hypothesis I_abort : ∀ i st, I i st → E st.

(** The training pass, with an invariant counting the batches done. *)
Lemma training_pass_rule ld st :
  (∀ x', I 0 (set_ambient x' (set_training true st.1),
              st.2 ++ [(CModelTrain, st.1)])) →
  (∀ i batch st', I i st' → wp (train_step batch) (λ _, I (S i)) E st') →
  wp (training_pass ld)
     (λ _ st', ∃ batches x',
        loader_pass randperm (shuffle ld) (batch_size ld)
          (dataset_len (dataset ld)) (ambient st.1) = (batches, x')
        ∧ I (length batches) st') E st.
Proof.
  intros H0 Hstep. destruct st as [m log].
  unfold training_pass, model_train. wp_steps.
  eapply wp_mono; [| | apply (wp_for_batches _ _ I E)].
  - intros u st' H. exact H.
  - done.
  - intros batches x' _. split; [apply H0|].
    intros i indices st' _ Hi.
    destruct (fetch ld indices) as [batch|e]; [by apply Hstep|].
    by eapply I_abort.
Qed.

(** The validation pass. *)
Lemma validation_pass_rule ld st (Q : float → St → Prop) :
  (∀ x', I 0 (set_ambient x' (set_accumulator [] (set_training false st.1)),
              (st.2 ++ [(CModelEval, st.1)])
              ++ [(CMetricReset, set_training false st.1)])) →
  (∀ i batch st', I i st' → wp (val_step batch) (λ _, I (S i)) E st') →
  (∀ batches x' m' log' r acc',
     loader_pass randperm (shuffle ld) (batch_size ld)
       (dataset_len (dataset ld)) (ambient st.1) = (batches, x') →
     I (length batches) (m', log') →
     mean_iou_compute (accumulator m') config_num_labels 255 false
     = (r, acc') →
     match r with
     | Ok results =>
         match results !! "mean_iou" with
         | Some v =>
             Q v (set_accumulator acc' m',
                  log' ++ [(CCompute config_num_labels 255 false, m')])
         | None =>
             E (set_accumulator acc' m',
                log' ++ [(CCompute config_num_labels 255 false, m')])
         end
     | Raise _ =>
         E (set_accumulator acc' m',
            log' ++ [(CCompute config_num_labels 255 false, m')])
     end) →
  wp (validation_pass ld) Q E st.
Proof.
  intros H0 Hstep Hcompute. destruct st as [m log].
  unfold validation_pass, model_eval, metric_reset. wp_steps.
  eapply wp_mono; [| | apply (wp_for_batches _ _ I E)].
  - intros u [m' log'] (batches & x' & Hpass & Hi). cbv beta.
    unfold metric_compute. wp_steps.
    destruct (mean_iou_compute _ _ _ _) as [r acc'] eqn:Hc.
    specialize (Hcompute batches x' m' log' r acc' Hpass Hi Hc).
    wp_steps. apply wp_lift. destruct r as [results|e]; [|done].
    apply wp_lift. unfold getkey.
    by destruct (results !! "mean_iou").
  - done.
  - intros batches x' _. split; [apply H0|].
    intros i indices st' _ Hi.
    destruct (fetch ld indices) as [batch|e]; [by apply Hstep|].
    by eapply I_abort.
Qed.

End PassRules.

(** A statement's [wp], from its outcome. *)
Lemma wp_of_outcome `{F : Framework} {A} (c : M A) Q E st :
  match (c st).1 with
  | Ok a => Q a (c st).2
  | Raise _ => E (c st).2
  end →
  wp c Q E st.
Proof. unfold wp. by destruct (c st) as [[a|e] st']. Qed.

(** ** A rule for one epoch *)

Section EpochRule.
Context `{F : Framework}.
Variable g : Globals.
Variable epoch : nat.
(** [P]: before the epoch; [T], [V]: during the training and validation
    loops, after so many batches; [Q]: after the report; [E]: after an
    exception. *)
Variable P : St → Prop.
Variables T V : nat → St → Prop.
Variable Q : St → Prop.
Variable E : St → Prop.
Hypothesis T_abort : ∀ i st, T i st → E st.
Hypothesis V_abort : ∀ i st, V i st → E st.
Hypothesis T_start : ∀ m log x',
  P (m, log) →
  T 0 (set_ambient x' (set_training true m), log ++ [(CModelTrain, m)]).
Hypothesis T_step : ∀ i batch st,
  T i st → wp (train_step batch) (λ _, T (S i)) E st.
Hypothesis V_start : ∀ i m log x',
  T i (m, log) →
  V 0 (set_ambient x' (set_accumulator [] (set_training false m)),
       (log ++ [(CModelEval, m)]) ++ [(CMetricReset, set_training false m)]).
Hypothesis V_step : ∀ i batch st,
  V i st → wp (val_step batch) (λ _, V (S i)) E st.
Hypothesis V_compute : ∀ i m log r acc',
  V i (m, log) →
  mean_iou_compute (accumulator m) config_num_labels 255 false = (r, acc') →
  let m' := set_accumulator acc' m in
  let log' := log ++ [(CCompute config_num_labels 255 false, m)] in
  match r with
  | Ok results =>
      match results !! "mean_iou" with
      | Some v =>
          let line := report_line (epoch + 1) (num_epochs g) v in
          Q (set_stdout (stdout m' ++ [line]) m', log' ++ [(CPrint line, m')])
      | None => E (m', log')
      end
  | Raise _ => E (m', log')
  end.

Lemma run_epoch_rule st : P st → wp (run_epoch g epoch) (λ _, Q) E st.
Proof.
  intros HP. unfold run_epoch. apply wp_bind.
  eapply wp_mono; [| | apply (training_pass_rule T E T_abort)].
  - intros [] [m1 log1] (batches & x' & _ & HT). cbv beta. apply wp_bind.
    eapply (validation_pass_rule V E V_abort).
    + intros x''. by eapply V_start.
    + apply V_step.
    + intros batches' x'' m' log' r acc' _ HV Hc.
      pose proof (V_compute _ m' log' r acc' HV Hc) as H. cbv zeta in H.
      destruct r as [results|e]; [|done].
      destruct (results !! "mean_iou") as [v|]; [|done].
      unfold print. wp_steps. exact H.
  - done.
  - intros x'. destruct st as [m log]. by apply T_start.
  - apply T_step.
Qed.

End EpochRule.

(** ** Journals *)

Section Journals.
Context `{F : Framework}.

Lemma journal_since_start φ m log : journal_since φ log (m, log).
Proof. exists []. by rewrite app_nil_r. Qed.

Lemma journal_since_app φ log0 m m' log more :
  Forall φ more →
  journal_since φ log0 (m, log) → journal_since φ log0 (m', log ++ more).
Proof.
  intros Hmore (new & Hlog & Hnew). simpl in *. exists (new ++ more).
  split; [by rewrite Hlog, app_assoc | by apply Forall_app].
Qed.

Lemma count_calls_app p l1 l2 :
  count_calls p (l1 ++ l2) = count_calls p l1 + count_calls p l2.
Proof. induction l1 as [|e l1 IH]; simpl; [done|]. rewrite IH. lia. Qed.

Lemma count_calls_none p log :
  Forall (λ e : Call * Machine, p e.1 = false) log → count_calls p log = 0.
Proof.
  induction 1 as [|e log He _ IH]; simpl; [done|]. by rewrite He, IH.
Qed.

End Journals.

(** ** Modes of the forward passes *)

Section ForwardModes.
Context `{F : Framework}.

Lemma forward_mode_ok_other c m :
  (∀ grad_enabled, c ≠ CForward grad_enabled) → forward_mode_ok (c, m).
Proof. intros Hc grad_enabled Heq. simpl in Heq. by destruct (Hc grad_enabled). Qed.

Lemma train_step_modes log0 batch st :
  training st.1 = true → journal_since forward_mode_ok log0 st →
  wp (train_step batch)
     (λ _ st', training st'.1 = true ∧ journal_since forward_mode_ok log0 st')
     (journal_since forward_mode_ok log0) st.
Proof.
  destruct st as [m log]. cbn [fst snd]. intros Hmode Hj.
  apply wp_of_outcome. rewrite train_step_effect.
  destruct (model_forward _ _ _ _ _) as [r x']. cbn [fst snd].
  assert (forward_mode_ok (CForward true, m)) as Hf.
  { intros b Hb. simpl in *. congruence. }
  unfold train_step_outcome. destruct r as [outputs|e]; cbn [fst snd].
  - destruct (loss_gradient outputs) as [grad|e]; cbn [fst snd].
    + destruct (train_step_machine_fields m x' grad) as (-> & _).
      split; [done|]. eapply journal_since_app; [|eassumption].
      constructor; [done|].
      repeat (constructor; [by apply forward_mode_ok_other|]).
      constructor.
    + eapply journal_since_app; [|eassumption].
      constructor; [done|].
      constructor; [by apply forward_mode_ok_other | constructor].
  - eapply journal_since_app; [|eassumption]. by repeat constructor.
Qed.

Lemma val_step_modes log0 batch st :
  training st.1 = false → journal_since forward_mode_ok log0 st →
  wp (val_step batch)
     (λ _ st', training st'.1 = false ∧ journal_since forward_mode_ok log0 st')
     (journal_since forward_mode_ok log0) st.
Proof.
  destruct st as [m log]. cbn [fst snd]. intros Hmode Hj.
  apply wp_of_outcome. rewrite val_step_effect.
  destruct (model_forward _ _ _ _ _) as [r x']. cbn [fst snd].
  assert (forward_mode_ok (CForward false, m)) as Hf.
  { intros b Hb. simpl in *. congruence. }
  assert (journal_since forward_mode_ok log0
            (set_ambient x' m, log ++ [(CForward false, m)])) as Hstop.
  { eapply journal_since_app; [|eassumption]. by repeat constructor. }
  unfold val_step_outcome. cbv zeta.
  destruct r as [outputs|e]; cbn [fst snd]; [|done].
  destruct (logits_argmax outputs) as [preds|e]; cbn [fst snd]; [|done].
  destruct (_ !! "labels") as [labels|]; cbn [fst snd]; [|done].
  split; [done|]. eapply journal_since_app; [|eassumption].
  constructor; [done|].
  constructor; [by apply forward_mode_ok_other | constructor].
Qed.

Lemma run_epoch_modes log0 g epoch st :
  journal_since forward_mode_ok log0 st →
  wp (run_epoch g epoch) (λ _, journal_since forward_mode_ok log0)
     (journal_since forward_mode_ok log0) st.
Proof.
  intros Hj.
  apply (run_epoch_rule g epoch
           (journal_since forward_mode_ok log0)
           (λ _ st', training st'.1 = true
                     ∧ journal_since forward_mode_ok log0 st')
           (λ _ st', training st'.1 = false
                     ∧ journal_since forward_mode_ok log0 st')
           (journal_since forward_mode_ok log0)
           (journal_since forward_mode_ok log0)); try done.
  - by intros i st' [_ H].
  - by intros i st' [_ H].
  - intros m log x' H. split; [done|].
    eapply journal_since_app; [|eassumption].
    constructor; [by apply forward_mode_ok_other | constructor].
  - intros i batch st' [Hm H]. by apply train_step_modes.
  - intros i m log x' [_ H]. split; [done|].
    rewrite <- app_assoc. eapply journal_since_app; [|eassumption].
    repeat (constructor; [by apply forward_mode_ok_other|]). constructor.
  - intros i batch st' [Hm H]. by apply val_step_modes.
  - intros i m log r acc' [_ H] Hc. cbv zeta.
    assert (journal_since forward_mode_ok log0
              (set_accumulator acc' m,
               log ++ [(CCompute config_num_labels 255 false, m)])) as H'.
    { eapply journal_since_app; [|eassumption].
      constructor; [by apply forward_mode_ok_other | constructor]. }
    destruct r as [results|e]; [|done].
    destruct (results !! "mean_iou") as [v|]; [|done].
    eapply journal_since_app; [|eassumption].
    constructor; [by apply forward_mode_ok_other | constructor].
Qed.

(** X7.  In any run of the epoch loop, from any state and whether it
    completes or raises: every training forward pass (gradient tracking on)
    runs with the model in training mode, and every validation forward
    pass (gradient tracking off) with the model in inference mode; the
    switch back to training mode at the top of each epoch is what keeps
    this true after the first validation. *)
Theorem forward_passes_run_in_their_mode (g : Globals) (st : St) :
  let out := epoch_loop g st in
  ∃ new, out.2.2 = st.2 ++ new ∧ Forall forward_mode_ok new.
Proof.
  assert (wp (epoch_loop g) (λ _, journal_since forward_mode_ok st.2)
            (journal_since forward_mode_ok st.2) st) as Hwp.
  { unfold epoch_loop. apply wp_for_each_inv.
    - destruct st. apply journal_since_start.
    - intros epoch st' _ H. by apply run_epoch_modes. }
  apply wp_outcome in Hwp. simpl.
  by destruct (epoch_loop g st) as [[[]|e] st'].
Qed.

End ForwardModes.

(** ** The training pass leaves the metric and the console alone *)

Section TrainingFrame.
Context `{F : Framework}.

Lemma train_step_frame m0 log0 batch st :
  training_frame m0 log0 st →
  wp (train_step batch) (λ _, training_frame m0 log0)
     (training_frame m0 log0) st.
Proof.
  destruct st as [m log]. intros (Ha & Ho & Hf & Ht & Hj). cbn [fst snd] in *.
  apply wp_of_outcome. rewrite train_step_effect.
  destruct (model_forward _ _ _ _ _) as [r x']. cbn [fst snd].
  unfold train_step_outcome. destruct r as [outputs|e]; cbn [fst snd].
  - destruct (loss_gradient outputs) as [grad|e]; cbn [fst snd].
    + destruct (train_step_machine_fields m x' grad)
        as (Ht' & Ha' & Ho' & Hf' & _).
      unfold training_frame. cbn [fst snd].
      rewrite Ht', Ha', Ho', Hf'. repeat (split; [done|]).
      eapply journal_since_app; [|eassumption].
      eapply Forall_impl; [apply train_step_journal_fields|].
      intros e (H1 & _ & H2 & H3 & H4). simpl. by rewrite H2, H3, H4.
    + repeat (split; [done|]). eapply journal_since_app; [|eassumption].
      by repeat constructor.
  - repeat (split; [done|]). eapply journal_since_app; [|eassumption].
    by repeat constructor.
Qed.

(** X8.  A training pass, whether it completes or raises, leaves the
    metric accumulator, the console and the files as they were; it ends
    with the model in training mode; and every call it makes is a call of
    the training loop (mode switch, forward with gradients, backward,
    optimizer step, scheduler step, clearing of gradients), never one on
    the metric. *)
Theorem training_pass_leaves_metric_and_console (ld : Loader) (st : St) :
  let out := training_pass ld st in
  accumulator out.2.1 = accumulator st.1
  ∧ stdout out.2.1 = stdout st.1
  ∧ artifacts out.2.1 = artifacts st.1
  ∧ training out.2.1 = true
  ∧ ∃ new, out.2.2 = st.2 ++ new
      ∧ Forall (λ e, training_call e.1 = true
                     ∧ accumulator e.2 = accumulator st.1
                     ∧ stdout e.2 = stdout st.1
                     ∧ artifacts e.2 = artifacts st.1) new.
Proof.
  assert (wp (training_pass ld)
            (λ _, training_frame st.1 st.2) (training_frame st.1 st.2) st)
    as Hwp.
  { eapply wp_mono;
      [| | apply (training_pass_rule (λ _, training_frame st.1 st.2)
                    (training_frame st.1 st.2))].
    - by intros u st' (batches & x' & _ & H).
    - done.
    - done.
    - intros x'. destruct st as [m log]. repeat (split; [done|]).
      apply (journal_since_app _ _ m); [|apply journal_since_start].
      by repeat constructor.
    - intros i batch st' H. by apply train_step_frame. }
  apply wp_outcome in Hwp. simpl.
  assert (training_frame st.1 st.2 (training_pass ld st).2) as H.
  { by destruct (training_pass ld st) as [[[]|e] st']. }
  destruct H as (Ha & Ho & Hf & Ht & Hj). done.
Qed.

End TrainingFrame.

(** ** The optimizer, the scheduler and the gradients move together *)

Section Lockstep.
Context `{F : Framework}.

Lemma update_precedes_schedule_app l1 l2 :
  update_precedes_schedule l1 → update_precedes_schedule l2 →
  update_precedes_schedule (l1 ++ l2).
Proof.
  intros H1 H2 i m Hi.
  destruct (decide (i < length l1)) as [Hlt|Hge].
  - rewrite lookup_app_l in Hi by done.
    destruct (H1 i m Hi) as (j & m' & -> & Hj). exists j, m'.
    split; [done|]. rewrite lookup_app_l by lia. done.
  - rewrite lookup_app_r in Hi by lia.
    destruct (H2 _ m Hi) as (j & m' & Heq & Hj).
    exists (length l1 + j), m'. split; [lia|].
    rewrite lookup_app_r by lia.
    by replace (length l1 + j - length l1) with j by lia.
Qed.

Lemma update_precedes_schedule_none l :
  Forall (λ e : Call * Machine, is_scheduler_step e.1 = false) l →
  update_precedes_schedule l.
Proof.
  intros Hall i m Hi.
  pose proof (Forall_lookup_1 _ _ _ _ Hall Hi) as H. done.
Qed.

Lemma update_precedes_schedule_step m x' g :
  update_precedes_schedule (train_step_journal m x' g).
Proof.
  intros i m' Hi. unfold train_step_journal in *.
  destruct i as [|[|[|[|[|i]]]]]; simpl in Hi; try done.
  eexists 2, _. split; [done|]. reflexivity.
Qed.

(** Appending entries with [a] optimizer steps, as many scheduler steps and
    clearings, and [a + d] backward passes. *)
Lemma lockstep_app log0 slack m m' log more a d :
  count_calls is_optimizer_step more = a →
  count_calls is_scheduler_step more = a →
  count_calls is_zero_grad more = a →
  count_calls is_backward more = a + d →
  update_precedes_schedule more →
  lockstep log0 slack (m, log) →
  lockstep log0 (slack + d) (m', log ++ more).
Proof.
  intros Ho Hs Hz Hb Hord (new & Hlog & H1 & H2 & H3 & H5).
  cbn [fst snd] in *. exists (new ++ more). cbn [fst snd].
  rewrite !count_calls_app, Ho, Hs, Hz, Hb, H1, H2, H3.
  split; [by rewrite Hlog, app_assoc|].
  repeat (split; [lia|]). by apply update_precedes_schedule_app.
Qed.

(** Appending entries that are none of the four calls. *)
Lemma lockstep_other log0 slack m m' log more :
  Forall (λ e : Call * Machine,
            is_optimizer_step e.1 = false ∧ is_scheduler_step e.1 = false
            ∧ is_zero_grad e.1 = false ∧ is_backward e.1 = false) more →
  lockstep log0 slack (m, log) → lockstep log0 slack (m', log ++ more).
Proof.
  intros Hmore H.
  replace slack with (slack + 0) by lia.
  apply (lockstep_app log0 slack m m' log more 0 0); try done.
  - apply count_calls_none. eapply Forall_impl; [exact Hmore|].
    by intros e (? & ? & ? & ?).
  - apply count_calls_none. eapply Forall_impl; [exact Hmore|].
    by intros e (? & ? & ? & ?).
  - apply count_calls_none. eapply Forall_impl; [exact Hmore|].
    by intros e (? & ? & ? & ?).
  - apply count_calls_none. eapply Forall_impl; [exact Hmore|].
    by intros e (? & ? & ? & ?).
  - apply update_precedes_schedule_none.
    eapply Forall_impl; [exact Hmore|].
    by intros e (? & ? & ? & ?).
Qed.

Lemma train_step_lockstep log0 batch st :
  lockstep log0 0 st →
  wp (train_step batch) (λ _, lockstep log0 0)
     (λ st', ∃ slack, slack ≤ 1 ∧ lockstep log0 slack st') st.
Proof.
  destruct st as [m log]. intros H.
  apply wp_of_outcome. rewrite train_step_effect.
  destruct (model_forward _ _ _ _ _) as [r x']. cbn [fst snd].
  unfold train_step_outcome. destruct r as [outputs|e]; cbn [fst snd].
  - destruct (loss_gradient outputs) as [grad|e]; cbn [fst snd].
    + apply (lockstep_app log0 0 m _ log _ 1 0); try done.
      apply update_precedes_schedule_step.
    + exists 1. split; [done|].
      apply (lockstep_app log0 0 m _ log _ 0 1); try done.
      apply update_precedes_schedule_none. by repeat constructor.
  - exists 0. split; [lia|].
    apply (lockstep_other log0 0 m); [|done].
    by repeat constructor.
Qed.

Lemma val_step_lockstep log0 batch st :
  lockstep log0 0 st →
  wp (val_step batch) (λ _, lockstep log0 0)
     (λ st', ∃ slack, slack ≤ 1 ∧ lockstep log0 slack st') st.
Proof.
  destruct st as [m log]. intros H.
  apply wp_of_outcome. rewrite val_step_effect.
  destruct (model_forward _ _ _ _ _) as [r x']. cbn [fst snd].
  assert (lockstep log0 0 (set_ambient x' m, log ++ [(CForward false, m)]))
    as Hstop.
  { apply (lockstep_other log0 0 m); [|done]. by repeat constructor. }
  unfold val_step_outcome. cbv zeta.
  destruct r as [outputs|e]; cbn [fst snd];
    [|exists 0; split; [lia|done]].
  destruct (logits_argmax outputs) as [preds|e]; cbn [fst snd];
    [|exists 0; split; [lia|done]].
  destruct (_ !! "labels") as [labels|]; cbn [fst snd]; [|exists 0; split; [lia|done]].
  apply (lockstep_other log0 0 m); [|done]. by repeat constructor.
Qed.

Lemma run_epoch_lockstep log0 g epoch st :
  lockstep log0 0 st →
  wp (run_epoch g epoch) (λ _, lockstep log0 0)
     (λ st', ∃ slack, slack ≤ 1 ∧ lockstep log0 slack st') st.
Proof.
  intros H.
  apply (run_epoch_rule g epoch (lockstep log0 0)
           (λ _, lockstep log0 0) (λ _, lockstep log0 0)
           (lockstep log0 0)
           (λ st', ∃ slack, slack ≤ 1 ∧ lockstep log0 slack st'));
    try done.
  - intros i st' H'. exists 0. split; [lia | done].
  - intros i st' H'. exists 0. split; [lia | done].
  - intros m log x' H'.
    apply (lockstep_other log0 0 m); [|done]. by repeat constructor.
  - intros i batch st' H'. by apply train_step_lockstep.
  - intros i m log x' H'. rewrite <- app_assoc.
    apply (lockstep_other log0 0 m); [|done]. by repeat constructor.
  - intros i batch st' H'. by apply val_step_lockstep.
  - intros i m log r acc' H' Hc. cbv zeta.
    assert (lockstep log0 0
              (set_accumulator acc' m,
               log ++ [(CCompute config_num_labels 255 false, m)])) as H''.
    { apply (lockstep_other log0 0 m); [|done].
      by repeat constructor. }
    destruct r as [results|e]; [|exists 0; split; [lia|done]].
    destruct (results !! "mean_iou") as [v|]; [|exists 0; split; [lia|done]].
    apply (lockstep_other log0 0 (set_accumulator acc' m)); [|done].
    by repeat constructor.
Qed.

(** X9.  In any run of the epoch loop, whether it completes or raises:
    there are exactly as many scheduler steps, and as many clearings of the
    gradients, as optimizer updates; every scheduler step comes directly
    after an optimizer update; and there is at most one backward pass that
    was not followed by an update (the one that raised), none in a run that
    completes. *)
Theorem optimizer_and_scheduler_in_lockstep (g : Globals) (st : St) :
  let out := epoch_loop g st in
  ∃ new, out.2.2 = st.2 ++ new
    ∧ count_calls is_scheduler_step new = count_calls is_optimizer_step new
    ∧ count_calls is_zero_grad new = count_calls is_optimizer_step new
    ∧ count_calls is_optimizer_step new ≤ count_calls is_backward new
    ∧ count_calls is_backward new ≤ count_calls is_optimizer_step new + 1
    ∧ (out.1 = Ok tt →
       count_calls is_backward new = count_calls is_optimizer_step new)
    ∧ update_precedes_schedule new.
Proof.
  assert (lockstep st.2 0 st) as H0.
  { exists []. rewrite app_nil_r. simpl. repeat (split; [done|]).
    by intros i m Hi. }
  assert (wp (epoch_loop g)
            (λ _, lockstep st.2 0)
            (λ st', ∃ slack, slack ≤ 1
               ∧ lockstep st.2 slack st') st)
    as Hwp.
  { unfold epoch_loop. apply wp_for_each_inv; [done|].
    intros epoch st' _ H. by apply run_epoch_lockstep. }
  apply wp_outcome in Hwp. simpl.
  destruct (epoch_loop g st) as [[[]|e] st']; cbn [fst snd] in *.
  - destruct Hwp as (new & Hlog & H1 & H2 & H3 & H5).
    exists new. repeat (split; [done || lia|]). done.
  - destruct Hwp as (slack & Hslack & new & Hlog & H1 & H2 & H3 & H5).
    exists new. repeat (split; [done || lia|]). done.
Qed.

End Lockstep.

(** ** The console of any run *)

Section Console.
Context `{F : Framework}.

Lemma train_step_console N out0 art0 vs batch st :
  console_is N out0 art0 vs st →
  wp (train_step batch) (λ _, console_is N out0 art0 vs)
     (console_is N out0 art0 vs) st.
Proof.
  destruct st as [m log]. intros [Ho Ha]. cbn [fst snd] in *.
  apply wp_of_outcome. rewrite train_step_effect.
  destruct (model_forward _ _ _ _ _) as [r x']. cbn [fst snd].
  unfold train_step_outcome. destruct r as [outputs|e]; cbn [fst snd];
    [|done].
  destruct (loss_gradient outputs) as [grad|e]; cbn [fst snd]; [|done].
  destruct (train_step_machine_fields m x' grad)
    as (_ & _ & Ho' & Ha' & _).
  unfold console_is. cbn [fst snd]. by rewrite Ho', Ha'.
Qed.

Lemma val_step_console N out0 art0 vs batch st :
  console_is N out0 art0 vs st →
  wp (val_step batch) (λ _, console_is N out0 art0 vs)
     (console_is N out0 art0 vs) st.
Proof.
  destruct st as [m log]. intros [Ho Ha]. cbn [fst snd] in *.
  apply wp_of_outcome. rewrite val_step_effect.
  destruct (model_forward _ _ _ _ _) as [r x']. cbn [fst snd].
  unfold val_step_outcome. cbv zeta.
  destruct r as [outputs|e]; cbn [fst snd]; [|done].
  destruct (logits_argmax outputs) as [preds|e]; cbn [fst snd]; [|done].
  by destruct (_ !! "labels") as [labels|].
Qed.

Lemma run_epoch_console g out0 art0 vs st :
  console_is (num_epochs g) out0 art0 vs st →
  wp (run_epoch g (length vs))
     (λ _ st', ∃ v, console_is (num_epochs g) out0 art0 (vs ++ [v]) st')
     (console_is (num_epochs g) out0 art0 vs) st.
Proof.
  intros H.
  apply (run_epoch_rule g (length vs)
           (console_is (num_epochs g) out0 art0 vs)
           (λ _, console_is (num_epochs g) out0 art0 vs)
           (λ _, console_is (num_epochs g) out0 art0 vs)
           (λ st', ∃ v, console_is (num_epochs g) out0 art0 (vs ++ [v]) st')
           (console_is (num_epochs g) out0 art0 vs)); try done.
  - intros i batch st' H'. by apply train_step_console.
  - intros i batch st' H'. by apply val_step_console.
  - intros i m log r acc' [Ho Ha] Hc. cbv zeta. cbn [fst snd] in *.
    destruct r as [results|e]; [|done].
    destruct (results !! "mean_iou") as [v|]; [|done].
    exists v. split; [|done]. cbn [fst snd stdout set_stdout set_accumulator].
    rewrite Ho, imap_app, app_assoc. simpl. by rewrite Nat.add_0_r.
Qed.

(** X10.  In any run of the epoch loop: what was on the console before
    stays there; after it come the reports of the epochs that completed, in
    order and numbered from 1; a run that completes has printed one report
    per epoch, a run that raises has printed strictly fewer (the epoch that
    raised prints nothing); no file is written either way. *)
Theorem console_after_any_run (g : Globals) (st : St) :
  let out := epoch_loop g st in
  ∃ vs : list float,
    stdout out.2.1
    = stdout st.1 ++ imap (λ i v, report_line (i + 1) (num_epochs g) v) vs
    ∧ artifacts out.2.1 = artifacts st.1
    ∧ (out.1 = Ok tt → length vs = num_epochs g)
    ∧ (∀ e, out.1 = Raise e → length vs < num_epochs g).
Proof.
  assert (wp (epoch_loop g)
            (λ _ st', ∃ vs, length vs = num_epochs g
               ∧ console_is (num_epochs g) (stdout st.1) (artifacts st.1)
                   vs st')
            (λ st', ∃ vs, length vs < num_epochs g
               ∧ console_is (num_epochs g) (stdout st.1) (artifacts st.1)
                   vs st') st) as Hwp.
  { unfold epoch_loop.
    eapply wp_mono;
      [| | apply (wp_for_each _ _
                   (λ i st', ∃ vs, length vs = i
                      ∧ console_is (num_epochs g) (stdout st.1)
                          (artifacts st.1) vs st'))].
    - intros u st' H. by rewrite length_seq in H.
    - intros st' H. exact H.
    - exists []. split; [done|]. split; [|done]. simpl.
      by rewrite app_nil_r.
    - intros i epoch st' Hi (vs & Hlen & H).
      apply lookup_seq in Hi as [-> Hlt]. simpl. subst i.
      eapply wp_mono; [| | by apply run_epoch_console].
      + intros u st'' [v Hv]. exists (vs ++ [v]).
        split; [rewrite length_app; simpl; lia | done].
      + intros st'' H'. by exists vs. }
  apply wp_outcome in Hwp. simpl.
  destruct (epoch_loop g st) as [[[]|e] st']; cbn [fst snd] in *.
  - destruct Hwp as (vs & Hlen & Ho & Ha). exists vs.
    split; [done|]. split; [done|]. split; [done|]. by intros e.
  - destruct Hwp as (vs & Hlen & Ho & Ha). exists vs.
    split; [done|]. split; [done|]. split; [done|]. by intros e' _.
Qed.

End Console.

(** ** The value an epoch reports *)

Section ReportedValue.
Context `{F : Framework}.

Lemma run_epoch_reports g epoch st :
  wp (run_epoch g epoch)
     (λ _ st', ∃ new results acc' v,
        st'.2 = st.2 ++ new
        ∧ mean_iou_compute (added_pairs new) config_num_labels 255 false
          = (Ok results, acc')
        ∧ results !! "mean_iou" = Some v
        ∧ stdout st'.1
          = stdout st.1 ++ [report_line (epoch + 1) (num_epochs g) v]
        ∧ accumulator st'.1 = acc')
     (λ _, True) st.
Proof.
  apply (run_epoch_rule g epoch
           (λ st', st' = st)
           (λ _ st', in_training st.2 st' ∧ stdout st'.1 = stdout st.1)
           (λ _ st', in_validation st.2 st' ∧ stdout st'.1 = stdout st.1)
           _ (λ _, True)); try done.
  - intros m log x' <-. split; [|done]. cbn [fst snd].
    apply in_training_snoc; [done|]. exists []. by rewrite app_nil_r.
  - intros i batch st' [Ht Ho].
    assert (console_is 0 (stdout st.1) (artifacts st'.1) [] st') as Hc.
    { split; [|done]. simpl. by rewrite app_nil_r. }
    eapply wp_mono;
      [| | apply (wp_conj _ _ _ _ _ _
                    (train_step_in_training st.2 batch st' Ht)
                    (train_step_console 0 (stdout st.1) (artifacts st'.1) []
                       batch st' Hc))].
    + intros u st'' [H1 [H2 _]]. split; [done|]. simpl in H2.
      by rewrite app_nil_r in H2.
    + done.
  - intros i m log x' [(pre & Hlog & Hpre) Ho]. cbn [fst snd] in *.
    split; [|done]. exists pre, m, (set_training false m), [].
    cbn [fst snd]. split; [|done]. rewrite Hlog, <- !app_assoc. done.
  - intros i batch st' [Hv Ho].
    assert (console_is 0 (stdout st.1) (artifacts st'.1) [] st') as Hc.
    { split; [|done]. simpl. by rewrite app_nil_r. }
    eapply wp_mono;
      [| | apply (wp_conj _ _ _ _ _ _
                    (val_step_in_validation st.2 batch st' Hv)
                    (val_step_console 0 (stdout st.1) (artifacts st'.1) []
                       batch st' Hc))].
    + intros u st'' [H1 [H2 _]]. split; [done|]. simpl in H2.
      by rewrite app_nil_r in H2.
    + done.
  - intros i m log r acc'
      [(pre & mE & mR & vals & Hlog & Hpre & Hvals & Hacc) Ho] Hc.
    cbv zeta. cbn [fst snd] in *.
    destruct r as [results|e]; [|done].
    destruct (results !! "mean_iou") as [v|] eqn:Hv; [|done].
    eexists _, results, acc', v. cbn [fst snd].
    split; [rewrite Hlog, <- !app_assoc; reflexivity|].
    split; [|cbn [stdout set_stdout set_accumulator accumulator];
             by rewrite Ho].
    rewrite added_pairs_app, (added_pairs_training pre Hpre).
    change ((CModelEval, mE) :: (CMetricReset, mR) :: vals ++ _)
      with ([(CModelEval, mE); (CMetricReset, mR)]
              ++ (vals ++ [(CCompute config_num_labels 255 false, m)]
                  ++ [(CPrint (report_line (epoch + 1) (num_epochs g) v),
                       set_accumulator acc' m)])).
    rewrite !added_pairs_app.
    change (added_pairs [(CModelEval, mE); (CMetricReset, mR)]) with
      (@nil (Preds * Tensor Scalar)).
    change (added_pairs [(CCompute config_num_labels 255 false, m)]) with
      (@nil (Preds * Tensor Scalar)).
    change (added_pairs
              [(CPrint (report_line (epoch + 1) (num_epochs g) v),
                set_accumulator acc' m)]) with
      (@nil (Preds * Tensor Scalar)).
    change (added_pairs ((CModelEval, mE) :: (CMetricReset, mR) :: vals))
      with (added_pairs vals).
    rewrite !app_nil_l, !app_nil_r, <- Hacc. exact Hc.
Qed.

(** X11.  When an epoch completes, the value it reports is the [mean_iou]
    entry of the metric computed, with the model's class count,
    ignore-index 255 and reduce-labels false, on exactly the pairs that the
    validation batches of this epoch added; the report is the one line the
    epoch appends to the console; and the accumulator is left as the
    computation left it. *)
Theorem epoch_reports_metric_of_its_pairs (g : Globals) (epoch : nat)
    (st st' : St) :
  run_epoch g epoch st = (Ok tt, st') →
  ∃ new results acc' v,
    st'.2 = st.2 ++ new
    ∧ mean_iou_compute (added_pairs new) config_num_labels 255 false
      = (Ok results, acc')
    ∧ results !! "mean_iou" = Some v
    ∧ stdout st'.1
      = stdout st.1 ++ [report_line (epoch + 1) (num_epochs g) v]
    ∧ accumulator st'.1 = acc'.
Proof.
  intros Hrun.
  pose proof (wp_outcome _ _ _ _ (run_epoch_reports g epoch st)) as H.
  by rewrite Hrun in H.
Qed.

End ReportedValue.

(** An instance: the first epoch of the small configuration. *)
Lemma epoch_reports_metric_of_its_pairs_witness :
  ∃ st' v,
    @run_epoch (Toy.framework 0.5) Toy.globals 0 (Toy.machine, [])
    = (Ok tt, st')
    ∧ stdout st'.1 = [report_line 1 2 v].
Proof.
  assert ((@run_epoch (Toy.framework 0.5) Toy.globals 0 (Toy.machine, [])).1
          = Ok tt) as Hok by (vm_compute; reflexivity).
  destruct (@run_epoch (Toy.framework 0.5) Toy.globals 0 (Toy.machine, []))
    as [r st'] eqn:H.
  simpl in Hok. subst r.
  destruct (@epoch_reports_metric_of_its_pairs (Toy.framework 0.5)
              Toy.globals 0 (Toy.machine, []) st' H)
    as (new & results & acc' & v & _ & _ & _ & Hout & _).
  exists st', v. split; [reflexivity | exact Hout].
Defined.

(** ** Validation batches and the metric *)

Section ValidationBatches.
Context `{F : Framework}.

(** X12.  A validation batch without a [labels] field never reaches the
    metric: the step does not complete, the accumulator is as it was, and
    the only call journalled is the forward pass; when the forward pass and
    the argmax succeed the exception is KeyError for [labels]. *)
Theorem val_step_without_labels batch (st : St) :
  batch !! "labels" = None →
  let out := val_step batch st in
  out.1 ≠ Ok tt
  ∧ accumulator out.2.1 = accumulator st.1
  ∧ out.2.2 = st.2 ++ [(CForward false, st.1)]
  ∧ (∀ outputs x' preds,
       model_forward (training st.1) false (weights st.1)
         (to_device <$> batch) (ambient st.1) = (Ok outputs, x') →
       logits_argmax outputs = Ok preds →
       out.1 = Raise (KeyError "labels")).
Proof.
  intros Hlabels. destruct st as [m log]. cbv zeta.
  assert ((to_device <$> batch) !! "labels" = None) as Hmoved.
  { by rewrite lookup_fmap, Hlabels. }
  rewrite val_step_effect. unfold val_step_outcome. cbv zeta.
  rewrite Hmoved. cbn [fst snd].
  destruct (model_forward _ _ _ _ _) as [[outputs|e] x'] eqn:Hf;
    cbn [fst snd].
  - destruct (logits_argmax outputs) as [preds|e] eqn:Hp; cbn [fst snd].
    + repeat (split; [done|]). done.
    + repeat (split; [done|]). intros outputs' x'' preds' [= <- <-] Hp'.
      congruence.
  - repeat (split; [done|]). intros outputs x'' preds Heq. congruence.
Qed.

Lemma val_step_adds_one_pair log0 i batch st :
  pairs_so_far log0 i st →
  wp (val_step batch) (λ _, pairs_so_far log0 (S i)) (λ _, True) st.
Proof.
  destruct st as [m log]. intros [Hlen [new Hlog]]. cbn [fst snd] in *.
  apply wp_of_outcome. rewrite val_step_effect.
  destruct (model_forward _ _ _ _ _) as [r x']. cbn [fst snd].
  unfold val_step_outcome. cbv zeta.
  destruct r as [outputs|e]; cbn [fst snd]; [|done].
  destruct (logits_argmax outputs) as [preds|e]; cbn [fst snd]; [|done].
  destruct (_ !! "labels") as [labels|]; cbn [fst snd]; [|done].
  unfold pairs_so_far. cbn [fst snd]. split.
  - change (accumulator (set_accumulator ?a _)) with a.
    rewrite length_app. cbn [length]. lia.
  - eexists. rewrite Hlog, <- app_assoc. reflexivity.
Qed.

(** X13.  A validation pass that completes hands the metric exactly one
    (prediction, reference) pair per batch of the loader: the accumulator
    that the computation finds holds [len(loader)] pairs. *)
Theorem validation_adds_one_pair_per_batch (ld : Loader) (st st' : St)
    (v : float) :
  randperm_contract randperm → 0 < batch_size ld →
  validation_pass ld st = (Ok v, st') →
  ∃ before mC,
    st'.2 = st.2 ++ before ++ [(CCompute config_num_labels 255 false, mC)]
    ∧ length (accumulator mC) = len_loader ld.
Proof.
  intros Hperm HB Hrun.
  assert (wp (validation_pass ld)
            (λ _ st'', ∃ before mC,
               st''.2 = st.2 ++ before
                          ++ [(CCompute config_num_labels 255 false, mC)]
               ∧ length (accumulator mC) = len_loader ld)
            (λ _, True) st) as Hwp.
  { apply (validation_pass_rule (pairs_so_far st.2) (λ _, True)); try done.
    - intros x'. split; [done|]. eexists. by rewrite <- app_assoc.
    - intros i batch st'' H. by apply val_step_adds_one_pair.
    - intros batches x' m' log' r acc' Hpass [Hlen [new Hlog]] Hc.
      cbn [fst snd] in *.
      destruct r as [results|e]; [|done].
      destruct (results !! "mean_iou") as [v'|]; [|done].
      exists new, m'. cbn [fst snd].
      split; [by rewrite Hlog, app_assoc|].
      rewrite Hlen. by eapply batch_count. }
  apply wp_outcome in Hwp. by rewrite Hrun in Hwp.
Qed.

End ValidationBatches.

(** An instance: a batch with pixel values only. *)
Lemma val_step_without_labels_witness :
  (@val_step (Toy.framework 0.5)
     (<["pixel_values" := mkTensor [1] [3%Z]]> ∅) (Toy.machine, [])).1
  = Raise (KeyError "labels").
Proof.
  refine (proj2 (proj2 (proj2
            (@val_step_without_labels (Toy.framework 0.5)
               (<["pixel_values" := mkTensor [1] [3%Z]]> ∅)
               (Toy.machine, []) _))) (0%Z, false) 1 1 eq_refl eq_refl).
  by vm_compute.
Defined.

(** An instance: the validation pass of the small configuration, three
    items in batches of two. *)
Lemma validation_adds_one_pair_per_batch_witness :
  ∃ st' v before mC,
    @validation_pass (Toy.framework 0.5) (val_loader Toy.globals)
      (Toy.machine, []) = (Ok v, st')
    ∧ st'.2 = before ++ [(CCompute 150 255%Z false, mC)]
    ∧ length (accumulator mC) = 2.
Proof.
  destruct (@validation_pass (Toy.framework 0.5) (val_loader Toy.globals)
              (Toy.machine, [])) as [r st'] eqn:H.
  assert (∃ v, r = Ok v) as [v ->].
  { apply result_ok_inv.
    change r with (r, st').1. rewrite <- H. vm_compute. reflexivity. }
  destruct (@validation_adds_one_pair_per_batch (Toy.framework 0.5)
              (val_loader Toy.globals) (Toy.machine, []) st' v
              permute_contract ltac:(simpl; lia) H)
    as (before & mC & Hlog & Hlen).
  exists st', v, before, mC. split; [reflexivity|].
  split; [exact Hlog | exact Hlen].
Defined.

(** ** The precision of the printed value *)

Lemma round_half_even_nearest (num den : Z) :
  (0 < den)%Z →
  (Z.abs (2 * (round_half_even num den * den - num)) ≤ den)%Z.
Proof.
  intros Hden. unfold round_half_even.
  pose proof (Z.div_mod num den ltac:(lia)) as Hdm.
  pose proof (Z.mod_pos_bound num den Hden) as Hr.
  destruct (Z.compare_spec (2 * (num mod den)) den) as [Heq|Hlt|Hgt];
    [destruct (Z.even (num / den))|..]; nia.
Qed.

(** X14.  The number printed for a metric value in (0, 1] is the value
    rounded to the nearest ten-thousandth: read back from the console, it
    is [n] ten-thousandths, where [n] differs from the exact value
    [m * 2^e], taken in ten-thousandths, by at most one half; a value that
    is a whole number is printed exactly. *)
Theorem printed_value_is_nearest (v : float) (m : positive) (e : Z) :
  Prim2SF v = S754_finite false m e → unit_interval v = true →
  ∃ n, fixed4_value (format_4f v) = Some n
    ∧ ((0 ≤ e)%Z → n = (Z.pos m * 2 ^ e * 10000)%Z)
    ∧ ((e < 0)%Z →
       (Z.abs (2 * (n * 2 ^ (- e) - Z.pos m * 10000)) ≤ 2 ^ (- e))%Z).
Proof.
  intros Hv Hunit. unfold unit_interval, format_4f in *. rewrite Hv in *.
  change (sign_prefix false +:+ fixed4 (scaled4 m e))
    with (fixed4 (scaled4 m e)).
  assert (0 ≤ scaled4 m e ≤ 10000)%Z as Hbounds.
  { unfold scaled4. destruct (Z.leb_spec 0 e) as [He|He].
    - apply Z.leb_le in Hunit. lia.
    - apply Z.leb_le in Hunit.
      apply round_half_even_bounds; [|lia].
      apply Z.pow_pos_nonneg; lia. }
  destruct (fixed4_shape _ Hbounds) as (_ & Hvalue & _).
  exists (scaled4 m e). split; [done|]. unfold scaled4.
  split; intros He.
  - destruct (Z.leb_spec 0 e); [done | lia].
  - destruct (Z.leb_spec 0 e); [lia|].
    apply round_half_even_nearest. apply Z.pow_pos_nonneg; lia.
Qed.

(** An instance: 0.12345 is printed as 0.1235 (the binary64 number nearest
    to 0.12345 lies above it). *)
Lemma printed_value_is_nearest_witness :
  ∃ n, fixed4_value (format_4f 0.12345) = Some n
    ∧ (Z.abs (2 * (n * 2 ^ 56 - 8895509983982204 * 10000)) ≤ 2 ^ 56)%Z.
Proof.
  destruct (printed_value_is_nearest 0.12345 8895509983982204 (-56)
              eq_refl eq_refl) as (n & Hn & _ & Hnear).
  exists n. split; [exact Hn|]. apply Hnear. reflexivity.
Defined.
